(** * boots: DHCP lease table, option-82 parsing and startup supervision

    A shallow embedding of [cmd/boots/dhcp.go] and [job/fetch.go].

    Conventions.
    - Go's [int] and [uint] are the 64-bit types of the amd64/arm64 targets
      the server is built for; they are modelled by [Z] with the wrap-around
      written out where a conversion or an addition can wrap.
    - A Go run-time panic (index out of range, slice bounds out of range,
      invalid argument to [rand.Intn]) is the value [None] of an [option];
      a normal return is [Some].
    - Logging and metrics calls have no influence on control flow or on the
      lease table and are left out. *)

From Stdlib Require Import ZArith Lia.
From Stdlib Require Import Strings.Byte Strings.Ascii Strings.String.
From stdpp Require Import base option list gmap strings fin_maps.

Local Open Scope Z_scope.

(** ** Bytes and machine integers *)

#[global] Instance byte_eq_dec : EqDecision byte := Byte.byte_eq_dec.

Module GoInt.

Definition uint_bits : Z := 64.

(** Conversion to [uint]: reduction modulo 2^64. *)
Definition to_uint (z : Z) : Z := z mod 2 ^ uint_bits.

(** [uint(b)] for a byte [b]. *)
Definition of_byte (b : byte) : Z := Z.of_N (Byte.to_N b).

(** [byte(v)]: the low eight bits of [v]. *)
Definition to_byte (v : Z) : byte :=
  default x00 (Byte.of_N (Z.to_N (v mod 256))).

End GoInt.

(** ** The parts of package [net] the server uses *)

Module net.

(** [net.IP] and [net.HardwareAddr] are byte slices. *)
Definition IP := list byte.
Definition HardwareAddr := list byte.

Definition IPv4len : nat := 4.
Definition IPv6len : nat := 16.

Definition isZeros (p : list byte) : bool :=
  forallb (fun b => bool_decide (b = x00)) p.

(** [ip.To4()]: the 4-byte form of an IPv4 address, [nil] otherwise. *)
Definition To4 (ip : IP) : IP :=
  if bool_decide (length ip = IPv4len) then ip
  else if bool_decide (length ip = IPv6len)
          && isZeros (take 10 ip)
          && bool_decide (ip !! 10%nat = Some xff)
          && bool_decide (ip !! 11%nat = Some xff)
       then take 4 (drop 12 ip)
       else [].

(** [net.IPv4(a, b, c, d)]: the 16-byte form of the address a.b.c.d. *)
Definition v4InV6Prefix : list byte :=
  [x00; x00; x00; x00; x00; x00; x00; x00; x00; x00; xff; xff].

Definition IPv4 (a b c d : byte) : IP := v4InV6Prefix ++ [a; b; c; d].

(** [mac.String()]: lower-case hexadecimal octets separated by colons. *)
Definition hexDigit : list ascii :=
  list_ascii_of_string "0123456789abcdef".

Definition hex (n : Z) : ascii :=
  default "0"%char (hexDigit !! Z.to_nat n).

Fixpoint String_from (i : nat) (a : list byte) : list ascii :=
  match a with
  | [] => []
  | b :: a' =>
      (if bool_decide (0 < i)%nat then [":"%char] else [])
        ++ [hex (Z.shiftr (GoInt.of_byte b) 4);
            hex (Z.land (GoInt.of_byte b) 15)]
        ++ String_from (S i) a'
  end.

Definition HardwareAddr_String (a : HardwareAddr) : string :=
  string_of_list_ascii (String_from 0 a).

End net.

(** [binary.BigEndian.Uint32(b)]; panics when [b] has fewer than 4 bytes. *)
Definition BigEndian_Uint32 (b : list byte) : option Z :=
  b3 ← b !! 3%nat;
  b2 ← b !! 2%nat;
  b1 ← b !! 1%nat;
  b0 ← b !! 0%nat;
  Some (Z.lor (Z.lor (Z.lor (GoInt.of_byte b3)
                            (Z.shiftl (GoInt.of_byte b2) 8))
                     (Z.shiftl (GoInt.of_byte b1) 16))
              (Z.shiftl (GoInt.of_byte b0) 24)).

(** ** Address arithmetic *)

(** [IPAdd] returns a copy of start + add. *)
Definition IPAdd (ip : net.IP) (add : Z) : option net.IP :=
  let inc := GoInt.to_uint add in
  let i := net.To4 ip in
  i0 ← i !! 0%nat;
  i1 ← i !! 1%nat;
  i2 ← i !! 2%nat;
  i3 ← i !! 3%nat;
  let v := GoInt.to_uint
             (Z.shiftl (GoInt.of_byte i0) 24 + Z.shiftl (GoInt.of_byte i1) 16
              + Z.shiftl (GoInt.of_byte i2) 8 + GoInt.of_byte i3) in
  let v := GoInt.to_uint (v + inc) in
  let v3 := GoInt.to_byte (Z.land v 255) in
  let v2 := GoInt.to_byte (Z.land (Z.shiftr v 8) 255) in
  let v1 := GoInt.to_byte (Z.land (Z.shiftr v 16) 255) in
  let v0 := GoInt.to_byte (Z.land (Z.shiftr v 24) 255) in
  Some (net.IPv4 v0 v1 v2 v3).

(** [IPRange] returns how many ips are in the range from start to stop
    (inclusive).  Both operands are below 2^32, so the 64-bit subtraction
    and addition cannot wrap. *)
Definition IPRange (start stop : net.IP) : option Z :=
  hi ← BigEndian_Uint32 (net.To4 stop);
  lo ← BigEndian_Uint32 (net.To4 start);
  Some (hi - lo + 1).

(** The 32-bit big-endian value of an IPv4 address. *)
Definition ip_value (ip : net.IP) : option Z := BigEndian_Uint32 (net.To4 ip).

(** The big-endian value of four bytes, as a sum. *)
Definition be32 (b0 b1 b2 b3 : byte) : Z :=
  GoInt.of_byte b0 * 2 ^ 24 + GoInt.of_byte b1 * 2 ^ 16
  + GoInt.of_byte b2 * 2 ^ 8 + GoInt.of_byte b3.

(** ** The lease table *)

Record lease := Lease {
  nic : string (* Client's CHAddr *)
}.

Record DHCPServer := mkDHCPServer {
  start : net.IP;          (* Start of IP range to distribute *)
  subnet : net.IP;         (* Hardware subnet mask *)
  gateway : net.IP;        (* Gateway IP *)
  leaseRange : Z;          (* Number of IPs to distribute (starting from start) *)
  leases : gmap Z lease    (* Map to keep track of leases *)
}.

Definition set_leases (m : gmap Z lease) (s : DHCPServer) : DHCPServer :=
  {| start := start s; subnet := subnet s; gateway := gateway s;
     leaseRange := leaseRange s; leases := m |}.

(** A small pool used in examples: 10.0.0.1 and the two addresses after it,
    the middle one leased. *)
Definition example_server : DHCPServer :=
  {| start := [x0a; x00; x00; x01];
     subnet := [xff; xff; xff; x00];
     gateway := [x0a; x00; x00; xfe];
     leaseRange := 3;
     leases := {[ 1 := Lease "02:00:00:00:00:01" ]} |}.

Definition example_mac : net.HardwareAddr := [x02; x00; x00; x00; x00; x01].

Definition example_order : list (Z * lease) :=
  [(1, Lease "02:00:00:00:00:01")].

(** Go's comma-ok map index [v, ok := m[k]]: the zero value when absent. *)
Definition map_index (m : gmap Z lease) (k : Z) : lease * bool :=
  match m !! k with
  | Some v => (v, true)
  | None => (Lease "", false)
  end.

(** [rand.Intn(n)] panics for [n <= 0] and otherwise returns a number in
    [[0, n)].  The state of the pseudo-random source is represented by the
    raw draw [r], which [Intn] reduces into the interval. *)
Definition rand_Intn (r : Z) (n : Z) : option Z :=
  if bool_decide (n <= 0) then None else Some (r mod n).

(** The inner loop [for i := lo; i < hi; i++] of [freeLease], started at
    [i] with [n] iterations left: [Some i] is [return i], [None] is the loop
    running to its end.  Since [i < hi] holds in the body, [i++] cannot
    overflow. *)
Fixpoint scan (m : gmap Z lease) (i : Z) (n : nat) : option Z :=
  match n with
  | O => None
  | S n' =>
      let '(_, ok) := map_index m i in
      if negb ok then Some i else scan m (i + 1) n'
  end.

(** The outer loop over the two index ranges. *)
Fixpoint scan_ranges (m : gmap Z lease) (vs : list (Z * Z)) : option Z :=
  match vs with
  | [] => None
  | (lo, hi) :: vs' =>
      match scan m lo (Z.to_nat (hi - lo)) with
      | Some i => Some i
      | None => scan_ranges m vs'
      end
  end.

Definition freeLease (r : Z) (s : DHCPServer) : option Z :=
  b ← rand_Intn r (leaseRange s); (* Try random first *)
  Some (default (-1) (scan_ranges (leases s) [(b, leaseRange s); (0, b)])).

Definition addLease (mac : net.HardwareAddr) (reqIP : net.IP)
    (s : DHCPServer) : option DHCPServer :=
  r ← IPRange (start s) reqIP;
  let leaseNum := r - 1 in
  if bool_decide (leaseNum >= 0) && bool_decide (leaseNum < leaseRange s) then
    let '(l, exists_) := map_index (leases s) leaseNum in
    if negb exists_ || String.eqb (nic l) (net.HardwareAddr_String mac) then
      Some (set_leases
              (<[leaseNum := Lease (net.HardwareAddr_String mac)]> (leases s)) s)
    else Some s
  else Some s.

(** [for i, v := range server.leases] visits the entries of the map in an
    order Go leaves unspecified; [order] is the sequence of entries of one
    such traversal.  The loop deletes the first matching entry and breaks. *)
Fixpoint release_loop (macs : string) (order : list (Z * lease))
    (m : gmap Z lease) : gmap Z lease :=
  match order with
  | [] => m
  | (i, v) :: rest =>
      if String.eqb (nic v) macs then delete i m
      else release_loop macs rest m
  end.

Definition releaseLease (order : list (Z * lease)) (mac : net.HardwareAddr)
    (s : DHCPServer) : DHCPServer :=
  set_leases (release_loop (net.HardwareAddr_String mac) order (leases s)) s.

(** A traversal order of a map: its entries, each once, in any order. *)
Definition range_order (m : gmap Z lease) (order : list (Z * lease)) : Prop :=
  order ≡ₚ map_to_list m.

(** ** The option parser *)

Record Packet := mkPacket {
  CHAddr : net.HardwareAddr;
  GIAddr : net.IP;
  MessageType : string;           (* req.GetMessageType().String() *)
  OptionMap : gmap Z (list byte)
}.

Definition OptionRelayAgentInformation : Z := 82.

(** [req.GetOption(o)]: the option's bytes and whether it is present. *)
Definition GetOption (req : Packet) (o : Z) : list byte * bool :=
  match OptionMap req !! o with
  | Some v => (v, true)
  | None => ([], false)
  end.

(** The slice expression [s[lo:hi]] panics unless [0 <= lo <= hi <= cap(s)].
    The only use below has [hi < len(s)], so the capacity beyond the length
    plays no role and is taken to be the length. *)
Definition slice (s : list byte) (lo hi : Z) : option (list byte) :=
  if bool_decide (0 <= lo) && bool_decide (lo <= hi)
     && bool_decide (hi <= Z.of_nat (length s))
  then Some (take (Z.to_nat (hi - lo)) (drop (Z.to_nat lo) s))
  else None.

Definition error := string.

Definition getCircuitID (req : Packet) : option (string * option error) :=
  let circuitID := ""%string in
  let '(eightytwo, ok) := GetOption req OptionRelayAgentInformation in
  if ok then
    e1 ← eightytwo !! 1%nat;
    if bool_decide (GoInt.of_byte e1 < Z.of_nat (length eightytwo)) then
      c ← slice eightytwo 2 (GoInt.of_byte e1);
      Some (string_of_list_byte c, None)
    else
      Some (circuitID,
            Some "option82 option1 out of bounds (check eightytwo[1])"%string)
  else Some (circuitID, None).

(** A packet that carries the given relay-agent-information option. *)
Definition with_option82 (e : list byte) : Packet :=
  {| CHAddr := [x02; x00; x00; x00; x00; x01];
     GIAddr := [x00; x00; x00; x00];
     MessageType := "DHCPDISCOVER";
     OptionMap := {[ OptionRelayAgentInformation := e ]} |}.

(** ** The packet handler *)

(** A handler run reads and updates the global [server], calls the
    collaborators of the job layer, and may panic.  The calls that matter
    for the order of provisioning are recorded as events. *)
Section Handler.

(** The descriptor [job.Job] returned by the job layer. *)
Context {Job : Type}.

Inductive event :=
| EvReleaseLease (mac : net.HardwareAddr)
| EvCreateFromDHCP (mac : net.HardwareAddr) (gi : net.IP) (circuitID : string)
| EvFreeLease
| EvCreateHWFromDHCP (mac : net.HardwareAddr) (gi : net.IP)
    (circuitID : string) (ip subnet gateway : net.IP)
| EvAddLease (mac : net.HardwareAddr) (ip : net.IP)
| EvGetTemplate (name : string)
| EvCreateWorkflow (tid : string) (mac : net.HardwareAddr)
| EvServeDHCP (j : Job).

(** What the world outside the handler answers during one run.  A Go
    result pair [(v, err)] is [inl v] when [err == nil], [inr err]
    otherwise. *)
Record World := mkWorld {
  ShouldIgnoreOUI : string -> bool;
  ShouldIgnoreGI : net.IP -> bool; (* conf.ShouldIgnoreGI(gi.String()) *)
  Getenv : string -> string;
  CreateFromDHCP : net.HardwareAddr -> net.IP -> string -> Job + error;
  CreateHWFromDHCP :
    net.HardwareAddr -> net.IP -> string -> net.IP -> net.IP -> net.IP ->
    Job + error;
  GetTemplate : string -> string + error;
  CreateWorkflow : string -> net.HardwareAddr -> string + error;
  rand : Z;                                   (* the draw of rand.Intn *)
  mapRange : gmap Z lease -> list (Z * lease) (* order of a map range *)
}.

(** Trace, then either a panic ([None]) or a result and the new server. *)
Definition M (A : Type) : Type :=
  DHCPServer -> list event * option (A * DHCPServer).

Definition ret {A} (a : A) : M A := fun s => ([], Some (a, s)).

Definition bind {A B} (m : M A) (f : A -> M B) : M B := fun s =>
  match m s with
  | (t, None) => (t, None)
  | (t, Some (a, s')) => let '(t', r) := f a s' in (t ++ t', r)
  end.

Notation "x <- m ;; k" := (bind m (fun x => k))
  (at level 100, m at next level, k at level 200, right associativity).
Notation "m ;; k" := (bind m (fun _ => k))
  (at level 100, k at level 200, right associativity).

Definition emit (e : event) : M unit := fun s => ([e], Some (tt, s)).

(** A computation that may panic and does not touch the server. *)
Definition go {A} (o : option A) : M A :=
  fun s => ([], (fun a => (a, s)) <$> o).

Definition get_server : M DHCPServer := fun s => ([], Some (s, s)).

(** A method of the global server that may panic. *)
Definition on_server {A} (f : DHCPServer -> option (A * DHCPServer)) : M A :=
  fun s => ([], f s).

(** The lease-table methods, on the global server. *)
Definition server_releaseLease (w : World) (mac : net.HardwareAddr) : M unit :=
  emit (EvReleaseLease mac);;
  on_server (fun s =>
    Some (tt, releaseLease (mapRange w (leases s)) mac s)).

Definition server_freeLease (w : World) : M Z :=
  emit EvFreeLease;;
  on_server (fun s => (fun k => (k, s)) <$> freeLease (rand w) s).

Definition server_addLease (mac : net.HardwareAddr) (ip : net.IP) : M unit :=
  emit (EvAddLease mac ip);;
  on_server (fun s => (fun s' => (tt, s')) <$> addLease mac ip s).

Definition serveDHCP (w : World) (req : Packet) : M unit :=
  let mac := CHAddr req in
  if ShouldIgnoreOUI w (net.HardwareAddr_String mac) then ret tt
  else if String.eqb (MessageType req) "DHCPRELEASE" then
    server_releaseLease w mac
  else
    let gi := GIAddr req in
    if ShouldIgnoreGI w gi then ret tt
    else
      r <- go (getCircuitID req);;
      let '(circuitID, _) := r in
      emit (EvCreateFromDHCP mac gi circuitID);;
      match CreateFromDHCP w mac gi circuitID with
      | inl j => emit (EvServeDHCP j)
      | inr _ =>
          (* Tink did not find any HW *)
          (* Check if we want to use default workflows *)
          if negb (String.eqb (Getenv w "ENABLE_DEFAULT_WORKFLOWS") "1")
          then ret tt
          else
            (* Assign IP address *)
            free <- server_freeLease w;;
            if bool_decide (free = -1) then ret tt
            else
              server <- get_server;;
              IPaddr <- go (IPAdd (start server) free);;
              (* at first we will need to create a hardware *)
              emit (EvCreateHWFromDHCP mac gi circuitID IPaddr
                      (subnet server) (gateway server));;
              match CreateHWFromDHCP w mac gi circuitID IPaddr
                      (subnet server) (gateway server) with
              | inr _ => ret tt
              | inl j =>
                  server_addLease mac IPaddr;;
                  (* we must now grab the 'default' template *)
                  emit (EvGetTemplate "default");;
                  match GetTemplate w "default" with
                  | inr _ => ret tt
                  | inl tid =>
                      (* now to make a workflow from it *)
                      emit (EvCreateWorkflow tid mac);;
                      match CreateWorkflow w tid mac with
                      | inr _ => ret tt
                      | inl wid => emit (EvServeDHCP j)
                      end
                  end
              end
      end.

End Handler.

Arguments event : clear implicits.
Arguments World : clear implicits.
Arguments M : clear implicits.

(** A world for examples: nothing is ignored, the client is unknown to the
    inventory, auto-provisioning is on and every collaborator succeeds. *)
Definition example_world : World string :=
  {| ShouldIgnoreOUI := fun _ => false;
     ShouldIgnoreGI := fun _ => false;
     Getenv := fun k =>
       if String.eqb k "ENABLE_DEFAULT_WORKFLOWS" then "1"%string
       else ""%string;
     CreateFromDHCP := fun _ _ _ => inr "hardware not found"%string;
     CreateHWFromDHCP := fun _ _ _ _ _ _ => inl "job"%string;
     GetTemplate := fun _ => inl "template-id"%string;
     CreateWorkflow := fun _ _ => inl "workflow-id"%string;
     rand := 8;
     mapRange := map_to_list |}.

(** A discover packet relayed with a four-byte circuit-id sub-option. *)
Definition example_packet : Packet :=
  with_option82 [x01; x04; x61; x62; x63; x64].

(** ** The startup supervisor *)

(** [errors.Wrap(err, msg)]: [nil] for a [nil] error, the annotated error
    otherwise. *)
Definition errors_Wrap (err : option error) (msg : string) : option error :=
  (fun e => (msg ++ ": " ++ e)%string) <$> err.

(** Modelled from the spec: [retry.Do] belongs to the imported package
    retry-go, which is not part of the source tree.  Following section 4.6,
    it runs the operation again after each failure under a bounded policy:
    the operation is run at most [attempts] times (the attempt budget), the
    first success ends the loop with no error, and when the budget is
    exhausted the collected failures are returned.  The waiting time between
    two attempts has no influence on the outcome and is left out.

    The operation is stateful; [retryableFunc n] is what its call number [n]
    (counted from 0) returns, [None] standing for a [nil] error.  The result
    is the number of calls made and the error returned. *)
Fixpoint retry_loop (retryableFunc : nat -> option error)
    (n remaining : nat) (errorLog : list error) : nat * option (list error) :=
  match remaining with
  | O => (n, Some errorLog)
  | S remaining' =>
      match retryableFunc n with
      | Some err => retry_loop retryableFunc (S n) remaining' (errorLog ++ [err])
      | None => (S n, None)
      end
  end.

(** Modelled from the spec: [retry.Do] with an attempt budget of [attempts],
    as described above. *)
Definition retry_Do (attempts : nat) (retryableFunc : nat -> option error)
  : nat * option (list error) :=
  retry_loop retryableFunc 0 attempts [].

(** How the supervisor ends: by returning, or in [mainlog.Fatal], which
    terminates the process. *)
Inductive exit :=
| Return
| Fatal (msg : string) (cause : list error).

(** [ServeDHCP], with [ListenAndServe n] the result of call number [n] of
    [dhcp4.ListenAndServe(listenAddr, handler)]; the result is the number of
    such calls and the way the supervisor ends.  The source passes no option
    to [retry.Do], so [attempts] is the budget the retry package has by
    default.  The worker pool, created before the loop and stopped by a
    deferred call, plays no role in the outcome. *)
Definition ServeDHCP (attempts : nat) (ListenAndServe : nat -> option error)
  : nat * exit :=
  let '(calls, err) :=
    retry_Do attempts
      (fun n => errors_Wrap (ListenAndServe n) "serving dhcp") in
  match err with
  | Some errs => (calls, Fatal "retry dhcp serve" errs)
  | None => (calls, Return)
  end.

(** A listen-and-serve operation that fails [k] times and then succeeds, and
    one that fails every time. *)
Definition fails_then_succeeds (k : nat) (n : nat) : option error :=
  if bool_decide (n < k)%nat then Some "bind: address already in use"%string
  else None.

Definition always_fails (n : nat) : option error :=
  Some "bind: address already in use"%string.

(** ** The dedup fetch layer *)

Section Fetch.

(** [packet.Discovery], the descriptor the inventory client returns. *)
Context {Discovery : Type}.

(** [ip.String()], the textual form of an address used as a key. *)
Variable IP_String : net.IP -> string.

(** The three fetch functions of [job/fetch.go] with their arguments.  Each
    wraps one operation of the inventory client in a closure and hands it to
    [servers.Do] under a key. *)
Inductive request :=
| discoverHardwareFromDHCP
    (mac : net.HardwareAddr) (giaddr : net.IP) (circuitID : string)
| createHardwareFromDHCP
    (mac : net.HardwareAddr) (giaddr : net.IP) (circuitID : string)
    (ip subnet gateway : net.IP)
| discoverHardwareFromIP (ip : net.IP).

(** The key a fetch function passes to [servers.Do]. *)
Definition key (q : request) : string :=
  match q with
  | discoverHardwareFromDHCP mac _ _ => net.HardwareAddr_String mac
  | createHardwareFromDHCP mac _ _ _ _ _ => net.HardwareAddr_String mac
  | discoverHardwareFromIP ip => IP_String ip
  end.

(** What a client operation, and with it a fetch function, returns: a
    descriptor or an error. *)
Definition outcome : Type := Discovery + error.

(** Where a caller of [servers.Do] is.  Calls (generations) are numbered in
    the order in which their in-flight records are created. *)
Inductive caller :=
| Running (c : nat) (q : request)               (* registered call [c], runs the operation *)
| Finishing (c : nat) (q : request) (r : outcome) (* operation done, record not yet cleared *)
| Waiting (c : nat)                             (* blocked on the in-flight call [c] *)
| Returned (c : nat) (r : outcome).             (* has received [r] *)

(** The state of the group [servers] and of its callers. *)
Record group := mkGroup {
  inflight : gmap string nat;  (* the in-flight record of each key *)
  results : gmap nat outcome;  (* the outcome of each completed call *)
  next : nat;                  (* number of calls registered so far *)
  callers : gmap nat caller;
  backend : list (nat * request * outcome)
    (* the client operations invoked: for which call, which one, its outcome *)
}.

Definition init : group :=
  {| inflight := ∅; results := ∅; next := 0; callers := ∅; backend := [] |}.

(** The atomic actions of the callers. *)
Inductive action :=
| Call (t : nat) (q : request)  (* a new caller [t] enters [Do (key q) fn] *)
| Fn (t : nat) (r : outcome)    (* the operation run by [t] returns [r] *)
| Clear (t : nat)               (* [t] clears the in-flight record and returns *)
| Wake (t : nat).               (* the blocked caller [t] receives the outcome *)

(** Modelled from the spec: [singleflight.Group.Do] belongs to the imported
    package groupcache/singleflight, which is not part of the source tree.
    Following section 4.4: a caller whose key has a call in flight blocks
    and receives that call's eventual result instead of starting a new one;
    otherwise it registers an in-flight record for the key and runs the
    operation; once the operation completes its outcome is handed to the
    blocked callers and the key's in-flight record is cleared.  Callers run
    concurrently; each action below is one atomic step (the group guards its
    record table with a mutex), and a schedule is any interleaving of such
    steps.  [None] means the action is not enabled in the state. *)
Definition step (a : action) (g : group) : option group :=
  match a with
  | Call t q =>
      match callers g !! t with
      | Some _ => None
      | None =>
          match inflight g !! key q with
          | Some c =>
              Some {| inflight := inflight g; results := results g;
                      next := next g;
                      callers := <[t := Waiting c]> (callers g);
                      backend := backend g |}
          | None =>
              let c := next g in
              Some {| inflight := <[key q := c]> (inflight g);
                      results := results g;
                      next := S c;
                      callers := <[t := Running c q]> (callers g);
                      backend := backend g |}
          end
      end
  | Fn t r =>
      match callers g !! t with
      | Some (Running c q) =>
          Some {| inflight := inflight g;
                  results := <[c := r]> (results g);
                  next := next g;
                  callers := <[t := Finishing c q r]> (callers g);
                  backend := backend g ++ [(c, q, r)] |}
      | _ => None
      end
  | Clear t =>
      match callers g !! t with
      | Some (Finishing c q r) =>
          Some {| inflight := delete (key q) (inflight g);
                  results := results g;
                  next := next g;
                  callers := <[t := Returned c r]> (callers g);
                  backend := backend g |}
      | _ => None
      end
  | Wake t =>
      match callers g !! t with
      | Some (Waiting c) =>
          match results g !! c with
          | Some r =>
              Some {| inflight := inflight g; results := results g;
                      next := next g;
                      callers := <[t := Returned c r]> (callers g);
                      backend := backend g |}
          | None => None
          end
      | _ => None
      end
  end.

(** Running a schedule, one action after the other. *)
Fixpoint run (sched : list action) (g : group) : option group :=
  match sched with
  | [] => Some g
  | a :: sched' =>
      match step a g with
      | Some g' => run sched' g'
      | None => None
      end
  end.

(** The client operations invoked for call [c]. *)
Definition invoked (c : nat) (g : group) : list (nat * request * outcome) :=
  filter (fun e => e.1.1 = c) (backend g).

(** The call a caller leads, with the request it was made for, and the call
    (generation) a caller belongs to. *)
Definition leads (th : caller) : option (nat * request) :=
  match th with
  | Running c q | Finishing c q _ => Some (c, q)
  | _ => None
  end.

Definition generation (th : caller) : nat :=
  match th with
  | Running c _ | Finishing c _ _ | Waiting c | Returned c _ => c
  end.

(** The invariant of the reachable states. *)
Record fetch_inv (g : group) : Prop := mkFetchInv {
  inv_running : forall t c q,
    callers g !! t = Some (Running c q) ->
    results g !! c = None /\ inflight g !! key q = Some c;
  inv_finishing : forall t c q r,
    callers g !! t = Some (Finishing c q r) ->
    results g !! c = Some r /\ inflight g !! key q = Some c;
  inv_waiting : forall t c,
    callers g !! t = Some (Waiting c) -> (c < next g)%nat;
  inv_returned : forall t c r,
    callers g !! t = Some (Returned c r) -> results g !! c = Some r;
  inv_done : forall c r,
    results g !! c = Some r -> exists q, invoked c g = [(c, q, r)];
  inv_pending : forall c,
    results g !! c = None ->
    invoked c g = [] /\
    ((c < next g)%nat -> exists t q, callers g !! t = Some (Running c q));
  inv_inflight : forall k c,
    inflight g !! k = Some c ->
    (c < next g)%nat /\
    exists t th q,
      callers g !! t = Some th /\ leads th = Some (c, q) /\ key q = k;
  inv_fresh : forall c, (next g <= c)%nat -> results g !! c = None;
  inv_leader : forall t1 t2 th1 th2 c q1 q2,
    callers g !! t1 = Some th1 -> callers g !! t2 = Some th2 ->
    leads th1 = Some (c, q1) -> leads th2 = Some (c, q2) -> t1 = t2
}.

End Fetch.

Arguments request : clear implicits.
Arguments caller : clear implicits.
Arguments group : clear implicits.
Arguments action : clear implicits.
Arguments outcome : clear implicits.

(** An interleaving for examples: two callers join the discovery that a
    first caller has in flight for the same hardware address; after that
    call is over a fourth caller starts a new one. *)
Definition example_IP_String : net.IP -> string := net.HardwareAddr_String.

Definition example_discover : request :=
  discoverHardwareFromDHCP example_mac [x00; x00; x00; x00] "ab".

Definition example_create : request :=
  createHardwareFromDHCP example_mac [x00; x00; x00; x00] "ab"
    [x0a; x00; x00; x03] [xff; xff; xff; x00] [x0a; x00; x00; xfe].

Definition example_schedule : list (action string) :=
  [Call 0 example_discover; Call 1 example_create; Call 2 example_discover;
   Fn 0 (inl "hardware"%string); Wake 1; Clear 0; Wake 2;
   Call 3 example_discover; Fn 3 (inr "not found"%string); Clear 3].

Definition example_group : group string :=
  default init (run example_IP_String example_schedule init).

(** ** Invariants of the server state *)

(** Every key of the lease map is an offset of the pool. *)
Definition keys_in_range (s : DHCPServer) : Prop :=
  map_Forall (fun k _ => 0 <= k < leaseRange s) (leases s).

(** Two server states have the same pool configuration. *)
Definition same_config (s s' : DHCPServer) : Prop :=
  start s' = start s /\ subnet s' = subnet s /\
  gateway s' = gateway s /\ leaseRange s' = leaseRange s.

(** The offset [k] is leased to the client [c]. *)
Definition leased_to (s : DHCPServer) (c : net.HardwareAddr) (k : Z) : Prop :=
  leases s !! k = Some (Lease (net.HardwareAddr_String c)).

(** ** Further examples *)

(** Worlds that differ from [example_world] in one answer. *)
Definition example_world_ignoring : World string :=
  {| ShouldIgnoreOUI := fun _ => true;
     ShouldIgnoreGI := ShouldIgnoreGI example_world;
     Getenv := Getenv example_world;
     CreateFromDHCP := CreateFromDHCP example_world;
     CreateHWFromDHCP := CreateHWFromDHCP example_world;
     GetTemplate := GetTemplate example_world;
     CreateWorkflow := CreateWorkflow example_world;
     rand := rand example_world;
     mapRange := mapRange example_world |}.

Definition example_world_disabled : World string :=
  {| ShouldIgnoreOUI := ShouldIgnoreOUI example_world;
     ShouldIgnoreGI := ShouldIgnoreGI example_world;
     Getenv := fun _ => ""%string;
     CreateFromDHCP := CreateFromDHCP example_world;
     CreateHWFromDHCP := CreateHWFromDHCP example_world;
     GetTemplate := GetTemplate example_world;
     CreateWorkflow := CreateWorkflow example_world;
     rand := rand example_world;
     mapRange := mapRange example_world |}.

(** A release packet whose option 82 is too short to be parsed. *)
Definition example_release : Packet :=
  {| CHAddr := example_mac;
     GIAddr := [x00; x00; x00; x00];
     MessageType := "DHCPRELEASE";
     OptionMap := {[ OptionRelayAgentInformation := [x01] ]} |}.

(** A pool of one address, leased. *)
Definition example_full_server : DHCPServer :=
  {| start := [x0a; x00; x00; x01];
     subnet := [xff; xff; xff; x00];
     gateway := [x0a; x00; x00; xfe];
     leaseRange := 1;
     leases := {[ 0 := Lease "02:00:00:00:00:09" ]} |}.

(** An empty pool of three addresses that starts at 255.255.255.254, two
    below the end of the IPv4 address space. *)
Definition example_edge_server : DHCPServer :=
  {| start := [xff; xff; xff; xfe];
     subnet := [xff; xff; xff; x00];
     gateway := [xff; xff; xff; x01];
     leaseRange := 3;
     leases := ∅ |}.

(** The group while a first caller runs its discovery, and a failing
    outcome. *)
Definition example_group_discovering : group string :=
  default init (run example_IP_String [Call 0 example_discover] init).

Definition example_not_found : outcome string := inr "not found"%string.

(** * Properties *)

(** ** Bytes and machine integers *)

Module GoIntFacts.
Import GoInt.

Lemma of_byte_range b : 0 <= of_byte b < 256.
Proof.
  unfold of_byte. pose proof (Byte.to_N_bounded b). lia.
Qed.

Lemma to_byte_of_byte b : to_byte (of_byte b) = b.
Proof.
  unfold to_byte, of_byte. pose proof (Byte.to_N_bounded b).
  rewrite Z.mod_small by lia.
  rewrite N2Z.id, Byte.of_to_N. reflexivity.
Qed.

Lemma of_byte_to_byte v : of_byte (to_byte v) = v mod 256.
Proof.
  unfold to_byte, of_byte.
  assert (Hr : 0 <= v mod 256 < 256) by (apply Z.mod_pos_bound; lia).
  destruct (Byte.of_N (Z.to_N (v mod 256))) as [b|] eqn:E.
  - apply Byte.to_of_N in E. simpl. rewrite E. lia.
  - apply Byte.of_N_None_iff in E. lia.
Qed.

Lemma to_uint_small z : 0 <= z < 2 ^ 64 -> to_uint z = z.
Proof. intros H. unfold to_uint, uint_bits. apply Z.mod_small. exact H. Qed.

(** Or-ing a value shifted past the bits of [a] is the same as adding it. *)
Lemma lor_shiftl_add a b k :
  0 <= k -> 0 <= a < 2 ^ k -> 0 <= b ->
  Z.lor a (Z.shiftl b k) = a + b * 2 ^ k.
Proof.
  intros Hk Ha Hb.
  assert (Hland : Z.land a (Z.shiftl b k) = 0).
  { apply Z.bits_inj'. intros n Hn.
    rewrite Z.land_spec, Z.bits_0.
    destruct (Z.lt_ge_cases n k) as [Hlt|Hge].
    - rewrite Z.shiftl_spec_low by assumption. apply andb_false_r.
    - destruct (Z.eq_dec a 0) as [->|Hne].
      + rewrite Z.bits_0. reflexivity.
      + rewrite (Z.bits_above_log2 a n); [reflexivity | lia |].
        apply Z.log2_lt_pow2; [lia|].
        apply Z.lt_le_trans with (2 ^ k); [lia|].
        apply Z.pow_le_mono_r; lia. }
  rewrite <- Z.lxor_lor by exact Hland.
  rewrite <- Z.add_nocarry_lxor by exact Hland.
  rewrite Z.shiftl_mul_pow2 by exact Hk. reflexivity.
Qed.

End GoIntFacts.

(** ** Address arithmetic *)

Section AddressArithmetic.
Import GoInt GoIntFacts.

Lemma be32_range b0 b1 b2 b3 : 0 <= be32 b0 b1 b2 b3 < 2 ^ 32.
Proof.
  unfold be32.
  pose proof (of_byte_range b0). pose proof (of_byte_range b1).
  pose proof (of_byte_range b2). pose proof (of_byte_range b3). lia.
Qed.

Lemma Uint32_four b0 b1 b2 b3 :
  BigEndian_Uint32 [b0; b1; b2; b3] = Some (be32 b0 b1 b2 b3).
Proof.
  unfold BigEndian_Uint32, be32. simpl. f_equal.
  pose proof (of_byte_range b0). pose proof (of_byte_range b1).
  pose proof (of_byte_range b2). pose proof (of_byte_range b3).
  rewrite (lor_shiftl_add (of_byte b3) (of_byte b2) 8) by lia.
  rewrite (lor_shiftl_add _ (of_byte b1) 16) by lia.
  rewrite (lor_shiftl_add _ (of_byte b0) 24) by lia.
  lia.
Qed.

(** A byte slice has a 32-bit value exactly when it has four bytes or
    more; [To4] yields four bytes or none. *)
Lemma To4_length ip : length (net.To4 ip) = 4%nat \/ net.To4 ip = [].
Proof.
  unfold net.To4. case_bool_decide as H4; [left; exact H4|].
  destruct (_ && _) eqn:E; [|right; reflexivity].
  left. repeat (apply andb_prop in E; destruct E as [E ?]).
  apply bool_decide_eq_true in E.
  rewrite length_take, length_drop. unfold net.IPv6len in E. lia.
Qed.

Lemma ip_value_inv ip v :
  ip_value ip = Some v ->
  exists b0 b1 b2 b3,
    net.To4 ip = [b0; b1; b2; b3] /\ v = be32 b0 b1 b2 b3.
Proof.
  unfold ip_value. intros Hv.
  destruct (To4_length ip) as [Hl|Hnil].
  - destruct (net.To4 ip) as [|b0 [|b1 [|b2 [|b3 [|? ?]]]]]; try discriminate.
    exists b0, b1, b2, b3. split; [reflexivity|].
    rewrite Uint32_four in Hv. congruence.
  - rewrite Hnil in Hv. discriminate.
Qed.

Lemma To4_IPv4 a b c d : net.To4 (net.IPv4 a b c d) = [a; b; c; d].
Proof. reflexivity. Qed.

(** Splitting a 32-bit value into its four bytes and back. *)
Lemma be32_split w :
  0 <= w < 2 ^ 32 ->
  be32 (to_byte (Z.land (Z.shiftr w 24) 255))
       (to_byte (Z.land (Z.shiftr w 16) 255))
       (to_byte (Z.land (Z.shiftr w 8) 255))
       (to_byte (Z.land w 255)) = w.
Proof.
  intros Hw. unfold be32.
  rewrite !of_byte_to_byte.
  change 255 with (Z.ones 8).
  rewrite !Z.land_ones by lia.
  rewrite !Z.shiftr_div_pow2 by lia.
  rewrite !Z.mod_mod by lia.
  change (2 ^ 8) with 256. change (2 ^ 16) with 65536.
  change (2 ^ 24) with 16777216. change (2 ^ 32) with 4294967296 in Hw.
  Z.div_mod_to_equations. lia.
Qed.

(** [IPAdd] on an IPv4 address: the address of value(ip) + add, reduced
    to 32 bits. *)
Lemma IPAdd_value ip v n :
  ip_value ip = Some v -> 0 <= n -> v + n < 2 ^ 32 ->
  exists ip', IPAdd ip n = Some ip' /\ ip_value ip' = Some (v + n).
Proof.
  intros Hv Hn Hfit.
  destruct (ip_value_inv _ _ Hv) as (b0 & b1 & b2 & b3 & H4 & ->).
  pose proof (be32_range b0 b1 b2 b3) as Hr.
  unfold IPAdd. rewrite H4. simpl.
  rewrite !Z.shiftl_mul_pow2 by lia.
  fold (be32 b0 b1 b2 b3).
  rewrite (to_uint_small (be32 b0 b1 b2 b3)) by lia.
  rewrite (to_uint_small n) by lia.
  rewrite (to_uint_small (be32 b0 b1 b2 b3 + n)) by lia.
  eexists. split; [reflexivity|].
  unfold ip_value. rewrite To4_IPv4, Uint32_four.
  rewrite be32_split by lia. reflexivity.
Qed.

Lemma IPRange_IPAdd_aux a v n :
  ip_value a = Some v -> 0 <= n -> v + n < 2 ^ 32 ->
  exists b, IPAdd a n = Some b /\ IPRange a b = Some (n + 1).
Proof.
  intros Hv Hn Hfit.
  destruct (IPAdd_value a v n Hv Hn Hfit) as (b & Hadd & Hb).
  exists b. split; [exact Hadd|].
  unfold IPRange. unfold ip_value in Hv, Hb. rewrite Hb, Hv.
  cbn [mbind option_bind]. f_equal. lia.
Qed.

End AddressArithmetic.

(** C4. For every IPv4 base address [a] (one that has a 32-bit value [v]) and
    every offset [n >= 0] with [v + n] below 2^32, [IPAdd a n] is an address
    [b] of value [v + n], and [IPRange a b - 1 = n]. *)
Theorem IPRange_IPAdd (a : net.IP) (v n : Z) :
  ip_value a = Some v -> 0 <= n -> v + n < 2 ^ 32 ->
  exists b r,
    IPAdd a n = Some b /\ ip_value b = Some (v + n) /\
    IPRange a b = Some r /\ r - 1 = n.
Proof.
  intros Hv Hn Hfit.
  destruct (IPAdd_value a v n Hv Hn Hfit) as (b & Hadd & Hb).
  exists b, (v + n - v + 1). repeat split; try assumption; [|lia].
  unfold IPRange. unfold ip_value in Hv, Hb. rewrite Hb, Hv. reflexivity.
Qed.

Lemma IPRange_IPAdd_witness :
  exists b r,
    IPAdd [xc0; xa8; x01; x02] 30 = Some b /\
    ip_value b = Some (3232235778 + 30) /\
    IPRange [xc0; xa8; x01; x02] b = Some r /\ r - 1 = 30.
Proof.
  apply (IPRange_IPAdd [xc0; xa8; x01; x02] 3232235778 30);
    [reflexivity | lia | lia].
Defined.

(** ** The lease table *)

Section LeaseTable.

Lemma set_leases_id s : set_leases (leases s) s = s.
Proof. destruct s. reflexivity. Qed.

Lemma scan_Some m i n k :
  scan m i n = Some k -> i <= k < i + Z.of_nat n /\ m !! k = None.
Proof.
  revert i. induction n as [|n IH]; intros i; cbn [scan]; [discriminate|].
  unfold map_index. destruct (m !! i) eqn:E; cbn [negb].
  - intros H. apply IH in H. destruct H as [H1 H2]. split; [lia | exact H2].
  - intros [= <-]. split; [lia | exact E].
Qed.

Lemma scan_None m i n :
  scan m i n = None ->
  forall k, i <= k < i + Z.of_nat n -> is_Some (m !! k).
Proof.
  revert i. induction n as [|n IH]; intros i; cbn [scan]; [lia|].
  unfold map_index. destruct (m !! i) eqn:E; cbn [negb]; [|discriminate].
  intros H k Hk. destruct (decide (k = i)) as [->|Hne]; [eauto|].
  apply (IH (i + 1) H). lia.
Qed.

(** What the two probing ranges of [freeLease] find, for a start point
    [b] inside the pool. *)
Lemma scan_ranges_wrap m b n :
  0 <= b < n ->
  match scan_ranges m [(b, n); (0, b)] with
  | Some k => 0 <= k < n /\ m !! k = None
  | None => forall k, 0 <= k < n -> is_Some (m !! k)
  end.
Proof.
  intros Hb. simpl.
  destruct (scan m b _) as [k|] eqn:E1.
  { apply scan_Some in E1. split; [lia | tauto]. }
  destruct (scan m 0 _) as [k|] eqn:E2.
  { apply scan_Some in E2. split; [lia | tauto]. }
  intros k Hk. destruct (Z.lt_ge_cases k b).
  - apply (scan_None _ _ _ E2). lia.
  - apply (scan_None _ _ _ E1). lia.
Qed.

Lemma rand_Intn_range r n :
  0 < n -> exists b, rand_Intn r n = Some b /\ 0 <= b < n.
Proof.
  intros Hn. unfold rand_Intn. rewrite bool_decide_eq_false_2 by lia.
  eexists. split; [reflexivity|]. apply Z.mod_pos_bound. exact Hn.
Qed.

Lemma rand_Intn_Some r n b : rand_Intn r n = Some b -> 0 <= b < n.
Proof.
  unfold rand_Intn. case_bool_decide; [discriminate|].
  intros [= <-]. apply Z.mod_pos_bound. lia.
Qed.

(** [freeLease] returns normally exactly when the pool size is positive. *)
Lemma freeLease_Some r s k :
  freeLease r s = Some k ->
  (k = -1 /\ forall j, 0 <= j < leaseRange s -> is_Some (leases s !! j))
  \/ (0 <= k < leaseRange s /\ leases s !! k = None).
Proof.
  unfold freeLease. destruct (rand_Intn r (leaseRange s)) as [b|] eqn:Eb;
    [|discriminate].
  apply rand_Intn_Some in Eb. cbn [mbind option_bind].
  pose proof (scan_ranges_wrap (leases s) b (leaseRange s) Eb) as Hw.
  destruct (scan_ranges _ _) as [k'|]; cbn [default]; intros [= <-].
  - right. exact Hw.
  - left. split; [reflexivity | exact Hw].
Qed.

(** If some offset of the pool is free, [freeLease] finds a free one. *)
Lemma freeLease_finds r s j :
  0 <= j < leaseRange s -> leases s !! j = None ->
  exists k, freeLease r s = Some k /\
            0 <= k < leaseRange s /\ leases s !! k = None.
Proof.
  intros Hj Hfree.
  destruct (rand_Intn_range r (leaseRange s)) as (b & Eb & Hb); [lia|].
  destruct (freeLease r s) as [k|] eqn:E.
  - exists k. split; [reflexivity|].
    destruct (freeLease_Some _ _ _ E) as [[_ Hfull]|Hok]; [|exact Hok].
    destruct (Hfull j Hj) as [l Hl]. congruence.
  - unfold freeLease in E. rewrite Eb in E. discriminate.
Qed.

End LeaseTable.

(** C1. With a positive pool size, [freeLease] returns (for every draw of
    the random source) either -1 or an offset [k] with [0 <= k < leaseRange]
    that is not a key of the lease map; and when every offset of the pool is
    a key of the map it returns -1. *)
Theorem freeLease_spec (r : Z) (s : DHCPServer) :
  0 < leaseRange s ->
  exists k,
    freeLease r s = Some k /\
    (k = -1 \/ (0 <= k < leaseRange s /\ leases s !! k = None)) /\
    ((forall j, 0 <= j < leaseRange s -> is_Some (leases s !! j)) -> k = -1).
Proof.
  intros Hpos.
  destruct (rand_Intn_range r (leaseRange s) Hpos) as (b & Eb & Hb).
  destruct (freeLease r s) as [k|] eqn:E.
  - exists k. split; [reflexivity|].
    destruct (freeLease_Some _ _ _ E) as [[-> Hfull]|[Hk Hfree]].
    + split; [left; reflexivity | reflexivity].
    + split; [right; split; assumption|].
      intros Hfull. destruct (Hfull k Hk) as [l Hl]. congruence.
  - unfold freeLease in E. rewrite Eb in E. discriminate.
Qed.

Lemma freeLease_spec_witness :
  exists k,
    freeLease 7 example_server = Some k /\
    (k = -1 \/ (0 <= k < leaseRange example_server /\
                leases example_server !! k = None)) /\
    ((forall j, 0 <= j < leaseRange example_server ->
        is_Some (leases example_server !! j)) -> k = -1).
Proof.
  apply (freeLease_spec 7 example_server). simpl. lia.
Defined.

(** ** Client identifiers *)

Section HardwareAddrString.
Import GoInt GoIntFacts.

Example HardwareAddr_String_ex :
  net.HardwareAddr_String [x00; x1a; xff] = "00:1a:ff"%string.
Proof. reflexivity. Qed.

(** The sixteen hexadecimal digits are pairwise distinct. *)
Lemma hexDigit_distinct :
  forallb (fun n =>
    forallb (fun m => implb (Ascii.eqb (net.hex n) (net.hex m)) (n =? m))
      (seqZ 0 16)) (seqZ 0 16) = true.
Proof. vm_compute. reflexivity. Qed.

Lemma hex_inj n m :
  0 <= n < 16 -> 0 <= m < 16 -> net.hex n = net.hex m -> n = m.
Proof.
  intros Hn Hm Heq.
  pose proof hexDigit_distinct as Ht.
  rewrite forallb_forall in Ht.
  assert (Hin : forall k, 0 <= k < 16 -> In k (seqZ 0 16)).
  { intros k Hk. apply list_elem_of_In, elem_of_seqZ. lia. }
  specialize (Ht n (Hin n Hn)). rewrite forallb_forall in Ht.
  specialize (Ht m (Hin m Hm)).
  apply Ascii.eqb_eq in Heq. rewrite Heq in Ht. cbn [implb] in Ht.
  apply Z.eqb_eq. exact Ht.
Qed.

Lemma hex_pair_inj b b' :
  net.hex (Z.shiftr (of_byte b) 4) = net.hex (Z.shiftr (of_byte b') 4) ->
  net.hex (Z.land (of_byte b) 15) = net.hex (Z.land (of_byte b') 15) ->
  b = b'.
Proof.
  pose proof (of_byte_range b) as Hb. pose proof (of_byte_range b') as Hb'.
  rewrite !Z.shiftr_div_pow2 by lia.
  change 15 with (Z.ones 4). rewrite !Z.land_ones by lia.
  change (2 ^ 4) with 16.
  intros Hhi Hlo.
  apply hex_inj in Hhi; [|Z.div_mod_to_equations; lia ..].
  apply hex_inj in Hlo; [|Z.div_mod_to_equations; lia ..].
  rewrite <- (to_byte_of_byte b), <- (to_byte_of_byte b'). f_equal.
  rewrite (Z.div_mod (of_byte b) 16), (Z.div_mod (of_byte b') 16) by lia.
  congruence.
Qed.

Lemma String_from_inj i a a' :
  net.String_from i a = net.String_from i a' -> a = a'.
Proof.
  revert i a'. induction a as [|b a IH]; intros i [|b' a']; cbn [net.String_from].
  - reflexivity.
  - case_bool_decide; discriminate.
  - case_bool_decide; discriminate.
  - intros H. apply app_inv_head in H. simpl in H.
    injection H as Hhi Hlo Htl.
    f_equal; [apply hex_pair_inj; assumption | eapply IH; eassumption].
Qed.

(** Distinct hardware addresses have distinct string forms. *)
Lemma HardwareAddr_String_inj a a' :
  net.HardwareAddr_String a = net.HardwareAddr_String a' -> a = a'.
Proof.
  unfold net.HardwareAddr_String. intros H.
  apply (f_equal list_ascii_of_string) in H.
  rewrite !list_ascii_of_string_of_list_ascii in H.
  eapply String_from_inj; eassumption.
Qed.

End HardwareAddrString.

(** ** Binding and releasing *)

Section Bind.

Lemma map_index_Some m k l : m !! k = Some l -> map_index m k = (l, true).
Proof. unfold map_index. intros ->. reflexivity. Qed.

Lemma map_index_None m k : m !! k = None -> map_index m k = (Lease "", false).
Proof. unfold map_index. intros ->. reflexivity. Qed.

(** An address outside the pool: nothing happens. *)
Lemma addLease_outside c a s r :
  IPRange (start s) a = Some r ->
  r - 1 < 0 \/ r - 1 >= leaseRange s ->
  addLease c a s = Some s.
Proof.
  intros Hr Hout. unfold addLease. rewrite Hr. cbn [mbind option_bind].
  destruct Hout.
  - rewrite (bool_decide_eq_false_2 (r - 1 >= 0)) by lia. reflexivity.
  - rewrite (bool_decide_eq_false_2 (r - 1 < leaseRange s)) by lia.
    rewrite andb_false_r. reflexivity.
Qed.

(** A free offset inside the pool: the binding is inserted. *)
Lemma addLease_free c a s r :
  IPRange (start s) a = Some r ->
  0 <= r - 1 < leaseRange s ->
  leases s !! (r - 1) = None ->
  addLease c a s =
    Some (set_leases
            (<[r - 1 := Lease (net.HardwareAddr_String c)]> (leases s)) s).
Proof.
  intros Hr Hin Hfree. unfold addLease. rewrite Hr. cbn [mbind option_bind].
  rewrite !bool_decide_eq_true_2 by lia. cbn [andb].
  rewrite (map_index_None _ _ Hfree). reflexivity.
Qed.

(** An offset bound to the same client: the table is as before. *)
Lemma addLease_same c a s r :
  IPRange (start s) a = Some r ->
  leases s !! (r - 1) = Some (Lease (net.HardwareAddr_String c)) ->
  addLease c a s = Some s.
Proof.
  intros Hr Hb. unfold addLease. rewrite Hr. cbn [mbind option_bind].
  destruct (_ && _); [|reflexivity].
  rewrite (map_index_Some _ _ _ Hb). cbn [nic negb orb].
  rewrite String.eqb_refl.
  rewrite insert_id by exact Hb. rewrite set_leases_id. reflexivity.
Qed.

(** An offset bound to a client with another string form: the table is as
    before. *)
Lemma addLease_other c a s r l :
  IPRange (start s) a = Some r ->
  leases s !! (r - 1) = Some l ->
  nic l <> net.HardwareAddr_String c ->
  addLease c a s = Some s.
Proof.
  intros Hr Hb Hne. unfold addLease. rewrite Hr. cbn [mbind option_bind].
  destruct (_ && _); [|reflexivity].
  rewrite (map_index_Some _ _ _ Hb). cbn [negb orb].
  apply String.eqb_neq in Hne. rewrite Hne. reflexivity.
Qed.

End Bind.

(** C3. When the offset of address [a] is bound to client [c1], binding it
    for a different client [c2] leaves the table unchanged, and binding it
    again for [c1] returns the same table, of the same size, without a
    panic. *)
Theorem addLease_no_overwrite_idempotent
    (s : DHCPServer) (c1 c2 : net.HardwareAddr) (a : net.IP) (r : Z) :
  c1 <> c2 ->
  IPRange (start s) a = Some r ->
  leases s !! (r - 1) = Some (Lease (net.HardwareAddr_String c1)) ->
  addLease c2 a s = Some s /\
  exists s', addLease c1 a s = Some s' /\ s' = s /\
             size (leases s') = size (leases s).
Proof.
  intros Hne Hr Hb. split.
  - apply (addLease_other c2 a s r _ Hr Hb). cbn [nic].
    intros H. apply HardwareAddr_String_inj in H. congruence.
  - exists s. split; [|split; reflexivity].
    apply (addLease_same c1 a s r Hr Hb).
Qed.

Lemma addLease_no_overwrite_idempotent_witness :
  addLease [x02; x00; x00; x00; x00; x02] [x0a; x00; x00; x02] example_server
    = Some example_server /\
  exists s', addLease [x02; x00; x00; x00; x00; x01] [x0a; x00; x00; x02]
               example_server = Some s' /\ s' = example_server /\
             size (leases s') = size (leases example_server).
Proof.
  apply (addLease_no_overwrite_idempotent example_server
           [x02; x00; x00; x00; x00; x01] [x02; x00; x00; x00; x00; x02]
           [x0a; x00; x00; x02] 2);
    [discriminate | reflexivity | reflexivity].
Defined.

(** C8. An address whose offset [IPRange start a - 1] is negative or at
    least [leaseRange] is ignored by [addLease]: the server state, and with
    it the lease map, is returned unchanged and there is no panic. *)
Theorem addLease_out_of_pool_noop
    (s : DHCPServer) (c : net.HardwareAddr) (a : net.IP) (r : Z) :
  IPRange (start s) a = Some r ->
  r - 1 < 0 \/ r - 1 >= leaseRange s ->
  addLease c a s = Some s.
Proof. apply addLease_outside. Qed.

Lemma addLease_out_of_pool_noop_witness :
  addLease [x02; x00; x00; x00; x00; x02] [x0a; x00; x00; x09] example_server
    = Some example_server.
Proof.
  apply (addLease_out_of_pool_noop example_server _ [x0a; x00; x00; x09] 9);
    [reflexivity | right; simpl; lia].
Defined.

(** C10. When [freeLease] returns an offset [k] other than -1, the address
    [IPAdd start k] has offset [k] again ([IPRange start (IPAdd start k) - 1
    = k]), and [addLease c (IPAdd start k)] records the binding of [k] to
    [c], for every client [c], provided [start] is an IPv4 address whose
    value plus [k] fits in 32 bits. *)
Theorem freeLease_then_addLease
    (r : Z) (s : DHCPServer) (k v : Z) (c : net.HardwareAddr) :
  0 < leaseRange s ->
  freeLease r s = Some k -> k <> -1 ->
  ip_value (start s) = Some v -> v + k < 2 ^ 32 ->
  exists ip o,
    IPAdd (start s) k = Some ip /\
    IPRange (start s) ip = Some o /\ o - 1 = k /\
    0 <= k < leaseRange s /\ leases s !! k = None /\
    addLease c ip s =
      Some (set_leases
              (<[k := Lease (net.HardwareAddr_String c)]> (leases s)) s).
Proof.
  intros _ Hfree Hk Hv Hfit.
  destruct (freeLease_Some _ _ _ Hfree) as [[-> _]|[Hin Hnone]]; [congruence|].
  destruct (IPRange_IPAdd_aux (start s) v k Hv) as (ip & Hadd & Hrange);
    [lia | lia |].
  exists ip, (k + 1). split; [exact Hadd|]. split; [exact Hrange|].
  split; [lia|]. split; [exact Hin|]. split; [exact Hnone|].
  assert (Ek : k + 1 - 1 = k) by lia.
  rewrite (addLease_free c ip s (k + 1) Hrange); rewrite Ek; auto.
Qed.

Lemma freeLease_then_addLease_witness :
  exists ip o,
    IPAdd (start example_server) 2 = Some ip /\
    IPRange (start example_server) ip = Some o /\ o - 1 = 2 /\
    0 <= 2 < leaseRange example_server /\
    leases example_server !! 2 = None /\
    addLease [x02; x00; x00; x00; x00; x02] ip example_server =
      Some (set_leases
              (<[2 := Lease (net.HardwareAddr_String
                               [x02; x00; x00; x00; x00; x02])]>
                 (leases example_server)) example_server).
Proof.
  apply (freeLease_then_addLease 8 example_server 2 167772161
           [x02; x00; x00; x00; x00; x02]);
    [simpl; lia | reflexivity | lia | reflexivity | lia].
Defined.

Section Release.

(** The loop removes the first entry of the traversal whose client
    matches, or nothing when no entry matches. *)
Lemma release_loop_spec macs order m :
  (exists i v, (i, v) ∈ order /\ nic v = macs
               /\ release_loop macs order m = delete i m)
  \/ ((forall i v, (i, v) ∈ order -> nic v <> macs)
      /\ release_loop macs order m = m).
Proof.
  induction order as [|[i v] rest IH]; cbn [release_loop].
  - right. split; [|reflexivity]. intros i v H. inversion H.
  - destruct (String.eqb_spec (nic v) macs) as [Heq|Hne].
    + left. exists i, v. split; [left|]. split; [exact Heq | reflexivity].
    + destruct IH as [(j & w & Hin & Hw & Hdel)|[Hall Hsame]].
      * left. exists j, w. split; [right; exact Hin|]. split; assumption.
      * right. split; [|exact Hsame].
        intros j w Hin. apply elem_of_cons in Hin as [[= -> ->]|Hin];
          [exact Hne | eapply Hall; exact Hin].
Qed.

Lemma range_order_elem m order i v :
  range_order m order -> (i, v) ∈ order <-> m !! i = Some v.
Proof.
  unfold range_order. intros Hp. rewrite Hp. apply elem_of_map_to_list.
Qed.

Lemma releaseLease_cases order c s :
  range_order (leases s) order ->
  (exists i l, leases s !! i = Some l /\ nic l = net.HardwareAddr_String c
               /\ releaseLease order c s
                  = set_leases (delete i (leases s)) s)
  \/ ((forall i l, leases s !! i = Some l ->
                   nic l <> net.HardwareAddr_String c)
      /\ releaseLease order c s = s).
Proof.
  intros Hord. unfold releaseLease.
  destruct (release_loop_spec (net.HardwareAddr_String c) order (leases s))
    as [(i & v & Hin & Hv & Hdel)|[Hall Hsame]].
  - left. exists i, v. rewrite <- (range_order_elem _ _ _ _ Hord).
    split; [exact Hin|]. split; [exact Hv|]. rewrite Hdel. reflexivity.
  - right. split.
    + intros i l Hl. apply (Hall i l).
      apply (range_order_elem _ _ _ _ Hord). exact Hl.
    + rewrite Hsame. apply set_leases_id.
Qed.

End Release.

(** C6. [releaseLease c] either removes one entry whose stored client is [c]
    and leaves every other entry as it was, or, when no entry's client is
    [c], returns the table unchanged; it never panics (it is a total
    function).  In particular, when [addLease c a] has recorded the binding
    of an in-pool offset [k] in a table that held no entry for [c], the
    release removes the entry at [k] and nothing else, which gives back the
    table from before the binding.  This holds for every traversal order of
    the map. *)
Theorem releaseLease_spec
    (order : list (Z * lease)) (c : net.HardwareAddr) (s : DHCPServer) :
  range_order (leases s) order ->
  ((exists i l,
       leases s !! i = Some l /\ nic l = net.HardwareAddr_String c /\
       releaseLease order c s = set_leases (delete i (leases s)) s /\
       forall j, j <> i ->
         leases (releaseLease order c s) !! j = leases s !! j)
   \/ ((forall i l, leases s !! i = Some l ->
                    nic l <> net.HardwareAddr_String c)
       /\ releaseLease order c s = s))
  /\ (forall (s0 : DHCPServer) (a : net.IP) (k : Z),
        (forall i l, leases s0 !! i = Some l ->
                     nic l <> net.HardwareAddr_String c) ->
        IPRange (start s0) a = Some (k + 1) ->
        0 <= k < leaseRange s0 ->
        addLease c a s0 = Some s ->
        leases s !! k = Some (Lease (net.HardwareAddr_String c)) ->
        releaseLease order c s = set_leases (delete k (leases s)) s /\
        releaseLease order c s = s0).
Proof.
  intros Hord. split.
  - destruct (releaseLease_cases order c s Hord)
      as [(i & l & Hl & Hn & Hrel)|[Hall Hsame]].
    + left. exists i, l. repeat split; try assumption.
      intros j Hj. rewrite Hrel. cbn [leases set_leases].
      apply lookup_delete_ne. congruence.
    + right. split; assumption.
  - intros s0 a k Hfree0 Hr Hin Hadd Hbound.
    assert (Ek : k + 1 - 1 = k) by lia.
    assert (Hk0 : leases s0 !! k = None).
    { destruct (leases s0 !! k) as [l|] eqn:El; [|reflexivity].
      exfalso.
      rewrite (addLease_other c a s0 (k + 1) l Hr) in Hadd;
        [| rewrite Ek; exact El | exact (Hfree0 k l El)].
      injection Hadd as <-. rewrite El in Hbound.
      injection Hbound as ->. exact (Hfree0 k _ El eq_refl). }
    rewrite (addLease_free c a s0 (k + 1) Hr) in Hadd;
      [| lia | rewrite Ek; exact Hk0].
    rewrite Ek in Hadd. injection Hadd as Hs.
    assert (Hls : leases s
                  = <[k := Lease (net.HardwareAddr_String c)]> (leases s0))
      by (rewrite <- Hs; reflexivity).
    assert (Hi : forall i l, leases s !! i = Some l ->
                             nic l = net.HardwareAddr_String c -> i = k).
    { intros i l Hl Hn. destruct (decide (i = k)) as [->|Hne]; [reflexivity|].
      rewrite Hls, lookup_insert_ne in Hl by congruence.
      exfalso. exact (Hfree0 i l Hl Hn). }
    destruct (releaseLease_cases order c s Hord)
      as [(i & l & Hl & Hn & Hrel)|[Hall _]].
    + rewrite (Hi i l Hl Hn) in Hrel. rewrite Hrel.
      split; [reflexivity|].
      rewrite Hls, <- Hs. unfold set_leases.
      cbn [start subnet gateway leaseRange leases].
      rewrite delete_insert_eq, delete_id by exact Hk0.
      destruct s0; reflexivity.
    + exfalso. exact (Hall k _ Hbound eq_refl).
Qed.

Lemma releaseLease_spec_witness :
  range_order (leases example_server) example_order /\
  ((exists i l,
       leases example_server !! i = Some l /\
       nic l = net.HardwareAddr_String example_mac /\
       releaseLease example_order example_mac example_server
         = set_leases (delete i (leases example_server)) example_server /\
       forall j, j <> i ->
         leases (releaseLease example_order example_mac example_server) !! j
           = leases example_server !! j)
   \/ ((forall i l, leases example_server !! i = Some l ->
                    nic l <> net.HardwareAddr_String example_mac)
       /\ releaseLease example_order example_mac example_server
          = example_server))
  /\ (forall (s0 : DHCPServer) (a : net.IP) (k : Z),
        (forall i l, leases s0 !! i = Some l ->
                     nic l <> net.HardwareAddr_String example_mac) ->
        IPRange (start s0) a = Some (k + 1) ->
        0 <= k < leaseRange s0 ->
        addLease example_mac a s0 = Some example_server ->
        leases example_server !! k
          = Some (Lease (net.HardwareAddr_String example_mac)) ->
        releaseLease example_order example_mac example_server
          = set_leases (delete k (leases example_server)) example_server /\
        releaseLease example_order example_mac example_server = s0).
Proof.
  assert (Hord : range_order (leases example_server) example_order)
    by (unfold range_order; vm_compute; reflexivity).
  split; [exact Hord|].
  exact (releaseLease_spec example_order example_mac example_server Hord).
Defined.

(** ** The option parser *)

Section OptionParser.

(** Without option 82 the circuit id is empty and there is no error. *)
Lemma getCircuitID_absent req :
  OptionMap req !! OptionRelayAgentInformation = None ->
  getCircuitID req = Some (""%string, None).
Proof.
  intros H. unfold getCircuitID, GetOption. rewrite H. reflexivity.
Qed.

(** With option 82 present, the parser panics exactly when the option has
    fewer than two bytes or its second byte is below 2. *)
Lemma getCircuitID_panic_iff req e :
  OptionMap req !! OptionRelayAgentInformation = Some e ->
  getCircuitID req = None <->
  (length e < 2)%nat
  \/ exists e1, e !! 1%nat = Some e1 /\ GoInt.of_byte e1 < 2.
Proof.
  intros H. unfold getCircuitID, GetOption. rewrite H.
  destruct (e !! 1%nat) as [e1|] eqn:E1; cbn [mbind option_bind].
  - apply lookup_lt_Some in E1.
    pose proof (GoIntFacts.of_byte_range e1) as Hr.
    case_bool_decide as Hlt.
    + unfold slice.
      destruct (decide (2 <= GoInt.of_byte e1)) as [Hge|Hlt2].
      * rewrite !bool_decide_eq_true_2 by lia. cbn [andb mbind option_bind].
        split; [discriminate|]. intros [Hl|(x & [= <-] & Hx)]; lia.
      * rewrite (bool_decide_eq_false_2 (2 <= GoInt.of_byte e1)) by lia.
        cbn [andb mbind option_bind].
        split; [|reflexivity]. intros _. right. exists e1. split; [reflexivity|lia].
    + split; [discriminate|]. intros [Hl|(x & [= <-] & Hx)]; lia.
  - apply lookup_ge_None in E1. split; [|reflexivity].
    intros _. left. lia.
Qed.

End OptionParser.

(** C2 (the code departs from the claim).  A relay-agent-information option
    whose second byte is smaller than 2, such as a circuit-id sub-option of
    length 1 ([01 01 41]), passes the length test and then panics in the
    slice expression [eightytwo[2:eightytwo[1]]]; an option of fewer than two
    bytes panics at [eightytwo[1]].  No error is returned in either case. *)
Theorem getCircuitID_panics :
  getCircuitID (with_option82 [x01; x01; x41]) = None /\
  getCircuitID (with_option82 [x01; x00]) = None /\
  getCircuitID (with_option82 [x01]) = None /\
  getCircuitID (with_option82 []) = None.
Proof. repeat split; reflexivity. Qed.

(** ** The packet handler *)

Section HandlerFacts.
Context {Job : Type}.
Implicit Types (w : World Job) (s : DHCPServer).

(** [IPAdd] panics only on a start address that is not IPv4, and what it
    returns is an IPv4 address. *)
Lemma IPAdd_total ip v n :
  ip_value ip = Some v ->
  exists a b c d, IPAdd ip n = Some (net.IPv4 a b c d).
Proof.
  intros Hv. destruct (ip_value_inv _ _ Hv) as (b0 & b1 & b2 & b3 & H4 & _).
  unfold IPAdd. rewrite H4. cbn [lookup list_lookup mbind option_bind].
  eauto 10.
Qed.

Lemma IPRange_total ip v a b c d :
  ip_value ip = Some v ->
  exists r, IPRange ip (net.IPv4 a b c d) = Some r.
Proof.
  intros Hv. unfold IPRange. rewrite To4_IPv4, Uint32_four.
  unfold ip_value in Hv. rewrite Hv. eauto.
Qed.

Lemma addLease_total c a s r :
  IPRange (start s) a = Some r -> exists s', addLease c a s = Some s'.
Proof.
  intros Hr. unfold addLease. rewrite Hr. cbn [mbind option_bind].
  destruct (_ && _); [|eauto].
  destruct (map_index _ _) as [l ex]. destruct (_ || _); eauto.
Qed.

End HandlerFacts.

(** C5. A packet that passes the filters, whose option 82 parses without a
    panic and whose client the inventory does not know, is handled as
    follows when auto-provisioning is on, some offset of the pool is free
    and the pool starts at an IPv4 address: after the inventory lookup and
    the allocation, the handler makes one hardware-creation call, one
    [addLease], one template lookup and one workflow-creation call, in this
    order, and then starts the responder; when the creation, the template
    lookup or the workflow creation fails, the trace ends with that call. *)
Theorem serveDHCP_auto_provision {Job : Type}
    (w : World Job) (req : Packet) (s : DHCPServer)
    (cid : string) (perr : option error) (derr : error) (j0 v : Z) :
  ShouldIgnoreOUI w (net.HardwareAddr_String (CHAddr req)) = false ->
  MessageType req <> "DHCPRELEASE"%string ->
  ShouldIgnoreGI w (GIAddr req) = false ->
  getCircuitID req = Some (cid, perr) ->
  CreateFromDHCP w (CHAddr req) (GIAddr req) cid = inr derr ->
  Getenv w "ENABLE_DEFAULT_WORKFLOWS" = "1"%string ->
  0 <= j0 < leaseRange s -> leases s !! j0 = None ->
  ip_value (start s) = Some v ->
  exists k ip s1,
    freeLease (rand w) s = Some k /\ 0 <= k < leaseRange s /\
    IPAdd (start s) k = Some ip /\
    addLease (CHAddr req) ip s = Some s1 /\
    let mac := CHAddr req in
    let gi := GIAddr req in
    let lookup := [EvCreateFromDHCP mac gi cid; EvFreeLease] in
    let create := EvCreateHWFromDHCP mac gi cid ip (subnet s) (gateway s) in
    serveDHCP w req s =
      match CreateHWFromDHCP w mac gi cid ip (subnet s) (gateway s) with
      | inr _ => (lookup ++ [create], Some (tt, s))
      | inl j =>
          match GetTemplate w "default" with
          | inr _ =>
              (lookup ++ [create; EvAddLease mac ip; EvGetTemplate "default"],
               Some (tt, s1))
          | inl tid =>
              match CreateWorkflow w tid mac with
              | inr _ =>
                  (lookup ++ [create; EvAddLease mac ip;
                              EvGetTemplate "default";
                              EvCreateWorkflow tid mac],
                   Some (tt, s1))
              | inl _ =>
                  (lookup ++ [create; EvAddLease mac ip;
                              EvGetTemplate "default";
                              EvCreateWorkflow tid mac; EvServeDHCP j],
                   Some (tt, s1))
              end
          end
      end.
Proof.
  intros Houi Hrel Hgi Hcid Hdisc Henv Hj0 Hfree0 Hv.
  destruct (freeLease_finds (rand w) s j0 Hj0 Hfree0) as (k & Hk & Hin & Hnone).
  destruct (IPAdd_total (start s) v k Hv) as (a & b & c & d & Hadd).
  destruct (IPRange_total (start s) v a b c d Hv) as (r & Hr).
  destruct (addLease_total (CHAddr req) _ s r Hr) as (s1 & Hs1).
  exists k, (net.IPv4 a b c d), s1.
  split; [exact Hk|]. split; [exact Hin|]. split; [exact Hadd|].
  split; [exact Hs1|].
  intros mac gi lookup create. subst mac gi lookup create.
  unfold serveDHCP. rewrite Houi.
  apply String.eqb_neq in Hrel. rewrite Hrel. rewrite Hgi.
  unfold bind at 1. unfold go at 1. rewrite Hcid. cbn [fmap option_fmap option_map].
  unfold bind at 1. unfold emit at 1.
  rewrite Hdisc, Henv. cbn [String.eqb Ascii.eqb Bool.eqb negb].
  unfold server_freeLease, server_addLease, on_server, get_server, go, emit, bind, ret.
  rewrite Hk. cbn [fmap option_fmap option_map].
  rewrite bool_decide_eq_false_2 by lia.
  rewrite Hadd. cbn [fmap option_fmap option_map].
  destruct (CreateHWFromDHCP w _ _ _ _ _ _) as [j|?]; [|reflexivity].
  rewrite Hs1. cbn [fmap option_fmap option_map].
  destruct (GetTemplate w _) as [tid|?]; [|reflexivity].
  destruct (CreateWorkflow w _ _) as [wid|?]; reflexivity.
Qed.

Lemma serveDHCP_auto_provision_witness :
  exists k ip s1,
    freeLease (rand example_world) example_server = Some k /\
    0 <= k < leaseRange example_server /\
    IPAdd (start example_server) k = Some ip /\
    addLease (CHAddr example_packet) ip example_server = Some s1 /\
    let mac := CHAddr example_packet in
    let gi := GIAddr example_packet in
    let lookup := [EvCreateFromDHCP mac gi "ab"; EvFreeLease] in
    let create :=
      EvCreateHWFromDHCP mac gi "ab" ip (subnet example_server)
        (gateway example_server) in
    serveDHCP example_world example_packet example_server =
      match CreateHWFromDHCP example_world mac gi "ab" ip
              (subnet example_server) (gateway example_server) with
      | inr _ => (lookup ++ [create], Some (tt, example_server))
      | inl j =>
          match GetTemplate example_world "default" with
          | inr _ =>
              (lookup ++ [create; EvAddLease mac ip; EvGetTemplate "default"],
               Some (tt, s1))
          | inl tid =>
              match CreateWorkflow example_world tid mac with
              | inr _ =>
                  (lookup ++ [create; EvAddLease mac ip;
                              EvGetTemplate "default";
                              EvCreateWorkflow tid mac],
                   Some (tt, s1))
              | inl _ =>
                  (lookup ++ [create; EvAddLease mac ip;
                              EvGetTemplate "default";
                              EvCreateWorkflow tid mac; EvServeDHCP j],
                   Some (tt, s1))
              end
          end
      end.
Proof.
  apply (serveDHCP_auto_provision example_world example_packet example_server
           "ab" None "hardware not found" 0 167772161);
    [reflexivity | discriminate | reflexivity | reflexivity | reflexivity
    | reflexivity | simpl; lia | reflexivity | reflexivity].
Defined.

Example serveDHCP_example :
  serveDHCP example_world example_packet example_server =
    ([EvCreateFromDHCP example_mac [x00; x00; x00; x00] "ab"; EvFreeLease;
      EvCreateHWFromDHCP example_mac [x00; x00; x00; x00] "ab"
        (net.IPv4 x0a x00 x00 x03) [xff; xff; xff; x00]
        [x0a; x00; x00; xfe];
      EvAddLease example_mac (net.IPv4 x0a x00 x00 x03);
      EvGetTemplate "default"; EvCreateWorkflow "template-id" example_mac;
      EvServeDHCP "job"%string],
     Some (tt, set_leases
                 (<[2 := Lease "02:00:00:00:00:01"]> (leases example_server))
                 example_server)).
Proof. vm_compute. reflexivity. Qed.

(** ** The startup supervisor *)

Section Supervisor.

Lemma retry_loop_calls f n remaining log :
  (fst (retry_loop f n remaining log) <= n + remaining)%nat.
Proof.
  revert n log. induction remaining as [|rem IH]; intros n log;
    cbn [retry_loop].
  - simpl. lia.
  - destruct (f n); [|simpl; lia].
    specialize (IH (S n) (log ++ [e])). lia.
Qed.

(** Failures on calls [n .. n + k - 1] and a success on call [n + k],
    within the budget: the loop ends with that success. *)
Lemma retry_loop_success f n remaining log k :
  (k < remaining)%nat ->
  (forall i, (i < k)%nat -> is_Some (f (n + i)%nat)) ->
  f (n + k)%nat = None ->
  retry_loop f n remaining log = (S (n + k), None).
Proof.
  revert n remaining log.
  induction k as [|k IH]; intros n remaining log Hlt Hfail Hok.
  - destruct remaining as [|rem]; [lia|]. cbn [retry_loop].
    rewrite Nat.add_0_r in Hok. rewrite Hok, Nat.add_0_r. reflexivity.
  - destruct remaining as [|rem]; [lia|]. cbn [retry_loop].
    destruct (Hfail 0%nat) as [e He]; [lia|].
    rewrite Nat.add_0_r in He. rewrite He.
    rewrite (IH (S n) rem); [f_equal; lia | lia | |].
    + intros i Hi. replace (S n + i)%nat with (n + S i)%nat by lia.
      apply Hfail. lia.
    + replace (S n + k)%nat with (n + S k)%nat by lia. exact Hok.
Qed.

(** Failures throughout: the loop makes [remaining] calls and returns the
    failures. *)
Lemma retry_loop_exhausted f n remaining log :
  (forall i, is_Some (f i)) ->
  exists errs,
    retry_loop f n remaining log = ((n + remaining)%nat, Some (log ++ errs))
    /\ length errs = remaining.
Proof.
  intros Hfail. revert n log.
  induction remaining as [|rem IH]; intros n log; cbn [retry_loop].
  - exists []. rewrite app_nil_r, Nat.add_0_r. split; reflexivity.
  - destruct (Hfail n) as [e He]. rewrite He.
    destruct (IH (S n) (log ++ [e])) as (errs & Hrun & Hlen).
    exists (e :: errs). rewrite Hrun. split.
    + f_equal; [lia|]. rewrite <- app_assoc. reflexivity.
    + simpl. lia.
Qed.

End Supervisor.

(** C9. With a budget of at least three attempts, a listen-and-serve
    operation that fails twice and then succeeds makes the supervisor return
    after the third call, without [Fatal].  An operation that fails on every
    call is called exactly [attempts] times, after which the supervisor ends
    in [Fatal] with the collected failures.  Whatever the operation does,
    it is never called more than [attempts] times, and the supervisor ends
    either by returning after a success or in [Fatal]. *)
Theorem ServeDHCP_retry
    (attempts : nat) (twice always : nat -> option error) :
  (3 <= attempts)%nat ->
  is_Some (twice 0%nat) -> is_Some (twice 1%nat) -> twice 2%nat = None ->
  (forall n, is_Some (always n)) ->
  ServeDHCP attempts twice = (3%nat, Return) /\
  (exists errs,
      ServeDHCP attempts always
        = (attempts, Fatal "retry dhcp serve" errs) /\
      length errs = attempts) /\
  (forall op, (fst (ServeDHCP attempts op) <= attempts)%nat).
Proof.
  intros Hbudget H0 H1 H2 Hfail. unfold ServeDHCP, retry_Do. repeat split.
  - rewrite (retry_loop_success _ 0 attempts [] 2); [reflexivity | lia | |].
    + intros i Hi. cbn [Nat.add]. unfold errors_Wrap.
      destruct i as [|[|i]]; [| |lia].
      * destruct H0 as [e ->]. eexists. reflexivity.
      * destruct H1 as [e ->]. eexists. reflexivity.
    + cbn [Nat.add]. rewrite H2. reflexivity.
  - destruct (retry_loop_exhausted
                (fun n => errors_Wrap (always n) "serving dhcp") 0 attempts [])
      as (errs & Hrun & Hlen).
    + intros i. destruct (Hfail i) as [e ->]. eexists. reflexivity.
    + exists errs. rewrite Hrun. split; [reflexivity | exact Hlen].
  - intros op.
    pose proof (retry_loop_calls
                  (fun n => errors_Wrap (op n) "serving dhcp") 0 attempts [])
      as Hc.
    destruct (retry_loop _ 0 attempts []) as [calls [errs|]]; simpl in *; lia.
Qed.

Lemma ServeDHCP_retry_witness :
  ServeDHCP 10 (fails_then_succeeds 2) = (3%nat, Return) /\
  (exists errs,
      ServeDHCP 10 always_fails
        = (10%nat, Fatal "retry dhcp serve" errs) /\
      length errs = 10%nat) /\
  (forall op, (fst (ServeDHCP 10 op) <= 10)%nat).
Proof.
  apply (ServeDHCP_retry 10 (fails_then_succeeds 2) always_fails).
  - lia.
  - vm_compute. eexists. reflexivity.
  - vm_compute. eexists. reflexivity.
  - reflexivity.
  - intros n. vm_compute. eexists. reflexivity.
Defined.

(** ** The dedup fetch layer *)

Section FetchFacts.

Context {Discovery : Type}.
Variable IP_String : net.IP -> string.

#[local] Abbreviation group := (group Discovery).
#[local] Abbreviation caller := (caller Discovery).
#[local] Abbreviation action := (action Discovery).
#[local] Abbreviation run := (run IP_String).
#[local] Abbreviation key := (key IP_String).
#[local] Abbreviation fetch_inv := (fetch_inv IP_String).

Implicit Types (g : group) (t c : nat) (q : request) (th : caller).

Lemma leads_inflight g t th c q :
  fetch_inv g -> callers g !! t = Some th -> leads th = Some (c, q) ->
  inflight g !! key q = Some c /\ (c < next g)%nat.
Proof.
  intros I Ht Hl.
  assert (Hm : inflight g !! key q = Some c).
  { destruct th as [c' q'|c' q' r|c'|c' r]; try discriminate;
      injection Hl as -> ->.
    - apply (inv_running _ _ I) in Ht. tauto.
    - apply (inv_finishing _ _ I) in Ht. tauto. }
  split; [exact Hm|]. apply (inv_inflight _ _ I) in Hm. tauto.
Qed.

Lemma fetch_inv_init : fetch_inv (init : group).
Proof.
  split; unfold init; cbn; intros; try (rewrite lookup_empty in *; try done).
  split; [reflexivity | lia].
Qed.

(** Reading a caller after another caller's state was replaced. *)
Ltac inv_insert H :=
  apply lookup_insert_Some in H as [[? H]|[? H]];
  [subst; try discriminate; try (injection H as ? ?); try (injection H as ?);
   subst | ].

(** A new caller joins the call in flight for its key. *)
Lemma fetch_inv_join g t q c :
  fetch_inv g -> callers g !! t = None -> inflight g !! key q = Some c ->
  fetch_inv {| inflight := inflight g; results := results g; next := next g;
               callers := <[t := Waiting c]> (callers g);
               backend := backend g |}.
Proof.
  intros I Ht Hm. split; cbn [inflight results next callers backend].
  - intros t' c' q' H. inv_insert H. exact (inv_running _ _ I _ _ _ H).
  - intros t' c' q' r H. inv_insert H. exact (inv_finishing _ _ I _ _ _ _ H).
  - intros t' c' H. inv_insert H.
    + apply (inv_inflight _ _ I) in Hm. tauto.
    + exact (inv_waiting _ _ I _ _ H).
  - intros t' c' r H. inv_insert H. exact (inv_returned _ _ I _ _ _ H).
  - exact (inv_done _ _ I).
  - intros c' H. destruct (inv_pending _ _ I c' H) as [Hlog Hrun].
    split; [exact Hlog|]. intros Hlt.
    destruct (Hrun Hlt) as (t' & q' & Ht').
    exists t', q'. rewrite lookup_insert_ne; [exact Ht'|congruence].
  - intros k c' H.
    destruct (inv_inflight _ _ I k c' H) as [Hlt (t' & th & q' & Ht' & Hl)].
    split; [exact Hlt|]. exists t', th, q'.
    rewrite lookup_insert_ne; [tauto|congruence].
  - exact (inv_fresh _ _ I).
  - intros t1 t2 th1 th2 c' q1 q2 H1 H2 L1 L2.
    inv_insert H1. inv_insert H2.
    exact (inv_leader _ _ I _ _ _ _ _ _ _ H1 H2 L1 L2).
Qed.

(** A new caller registers a call for a key with no call in flight. *)
Lemma fetch_inv_lead g t q :
  fetch_inv g -> callers g !! t = None -> inflight g !! key q = None ->
  fetch_inv {| inflight := <[key q := next g]> (inflight g);
               results := results g; next := S (next g);
               callers := <[t := Running (next g) q]> (callers g);
               backend := backend g |}.
Proof.
  intros I Ht Hm. split; cbn [inflight results next callers backend].
  - intros t' c' q' H. inv_insert H.
    + split; [apply (inv_fresh _ _ I); lia | apply lookup_insert_eq].
    + destruct (inv_running _ _ I _ _ _ H) as [Hr Hk]. split; [exact Hr|].
      rewrite lookup_insert_ne; [exact Hk|congruence].
  - intros t' c' q' r H. inv_insert H.
    destruct (inv_finishing _ _ I _ _ _ _ H) as [Hr Hk]. split; [exact Hr|].
    rewrite lookup_insert_ne; [exact Hk|congruence].
  - intros t' c' H. inv_insert H.
    pose proof (inv_waiting _ _ I _ _ H). lia.
  - intros t' c' r H. inv_insert H. exact (inv_returned _ _ I _ _ _ H).
  - exact (inv_done _ _ I).
  - intros c' H. destruct (inv_pending _ _ I c' H) as [Hlog Hrun].
    split; [exact Hlog|]. intros Hlt.
    destruct (decide (c' = next g)) as [->|Hne].
    + exists t, q. apply lookup_insert_eq.
    + destruct Hrun as (t' & q' & Ht'); [lia|].
      exists t', q'. rewrite lookup_insert_ne; [exact Ht'|congruence].
  - intros k c' H. apply lookup_insert_Some in H as [[<- <-]|[Hne H]].
    + split; [lia|]. exists t, (Running (next g) q), q.
      split; [apply lookup_insert_eq | split; reflexivity].
    + destruct (inv_inflight _ _ I k c' H)
        as [Hlt (t' & th & q' & Ht' & Hl)].
      split; [lia|]. exists t', th, q'.
      rewrite lookup_insert_ne; [tauto|congruence].
  - intros c' Hc. apply (inv_fresh _ _ I). lia.
  - intros t1 t2 th1 th2 c' q1 q2 H1 H2 L1 L2.
    apply lookup_insert_Some in H1 as [[<- <-]|[Hn1 H1]];
      apply lookup_insert_Some in H2 as [[<- <-]|[Hn2 H2]].
    + reflexivity.
    + injection L1 as <- <-.
      pose proof (leads_inflight _ _ _ _ _ I H2 L2). lia.
    + injection L2 as <- <-.
      pose proof (leads_inflight _ _ _ _ _ I H1 L1). lia.
    + exact (inv_leader _ _ I _ _ _ _ _ _ _ H1 H2 L1 L2).
Qed.

(** The operation of a leader returns. *)
Lemma fetch_inv_fn g t c q r :
  fetch_inv g -> callers g !! t = Some (Running c q) ->
  fetch_inv {| inflight := inflight g; results := <[c := r]> (results g);
               next := next g;
               callers := <[t := Finishing c q r]> (callers g);
               backend := backend g ++ [(c, q, r)] |}.
Proof.
  intros I Ht.
  destruct (inv_running _ _ I _ _ _ Ht) as [Hres Hm].
  assert (Hlt : (c < next g)%nat) by (apply (inv_inflight _ _ I) in Hm; tauto).
  assert (Hother : forall t' th c' q',
             t <> t' -> callers g !! t' = Some th ->
             leads th = Some (c', q') -> c' <> c).
  { intros t' th c' q' Hne Ht' Hl ->. apply Hne.
    exact (inv_leader _ _ I _ _ _ _ _ _ _ Ht Ht' eq_refl Hl). }
  split; cbn [inflight results next callers backend].
  - intros t' c' q' H. inv_insert H.
    destruct (inv_running _ _ I _ _ _ H) as [Hr Hk]. split; [|exact Hk].
    rewrite lookup_insert_ne; [exact Hr|].
    intros ->. exact (Hother _ _ _ _ H0 H eq_refl eq_refl).
  - intros t' c' q' r' H. inv_insert H.
    + split; [apply lookup_insert_eq | exact Hm].
    + destruct (inv_finishing _ _ I _ _ _ _ H) as [Hr Hk]. split; [|exact Hk].
      rewrite lookup_insert_ne; [exact Hr|].
      intros ->. exact (Hother _ _ _ _ H0 H eq_refl eq_refl).
  - intros t' c' H. inv_insert H. exact (inv_waiting _ _ I _ _ H).
  - intros t' c' r' H. inv_insert H.
    pose proof (inv_returned _ _ I _ _ _ H) as Hr.
    rewrite lookup_insert_ne; [exact Hr|]. congruence.
  - intros c' r' H. unfold invoked. cbn [backend]. rewrite filter_app.
    apply lookup_insert_Some in H as [[<- <-]|[Hne H]].
    + exists q. destruct (inv_pending _ _ I c Hres) as [Hlog _].
      unfold invoked in Hlog. rewrite Hlog.
      rewrite filter_cons_True by reflexivity. reflexivity.
    + destruct (inv_done _ _ I c' r' H) as [q' Hq']. exists q'.
      unfold invoked in Hq'. rewrite Hq'.
      rewrite filter_cons_False by (cbn; congruence). reflexivity.
  - intros c' H. apply lookup_insert_None in H as [H Hne].
    destruct (inv_pending _ _ I c' H) as [Hlog Hrun]. split.
    + unfold invoked in *. cbn [backend]. rewrite filter_app, Hlog.
      rewrite filter_cons_False by (cbn; congruence). reflexivity.
    + intros Hc'. destruct (Hrun Hc') as (t' & q' & Ht').
      exists t', q'. rewrite lookup_insert_ne; [exact Ht'|].
      intros <-. rewrite Ht in Ht'. congruence.
  - intros k c' H.
    destruct (inv_inflight _ _ I k c' H) as [Hc' (t' & th & q' & Ht' & Hl & Hk)].
    split; [exact Hc'|].
    destruct (decide (t = t')) as [<-|Hne].
    + rewrite Ht in Ht'. injection Ht' as <-. injection Hl as <- <-.
      exists t, (Finishing c q r), q. rewrite lookup_insert_eq. auto.
    + exists t', th, q'. rewrite lookup_insert_ne by exact Hne. auto.
  - intros c' Hc'. rewrite lookup_insert_ne by lia. apply (inv_fresh _ _ I). lia.
  - intros t1 t2 th1 th2 c' q1 q2 H1 H2 L1 L2.
    assert (Hback : forall t' th' x,
               <[t := Finishing c q r]> (callers g) !! t' = Some th' ->
               leads th' = Some x ->
               exists th0, callers g !! t' = Some th0 /\ leads th0 = Some x).
    { intros t' th' x H L. apply lookup_insert_Some in H as [[<- <-]|[Hn H]].
      - exists (Running c q). auto.
      - exists th'. auto. }
    destruct (Hback _ _ _ H1 L1) as (a1 & A1 & B1).
    destruct (Hback _ _ _ H2 L2) as (a2 & A2 & B2).
    exact (inv_leader _ _ I _ _ _ _ _ _ _ A1 A2 B1 B2).
Qed.

(** A leader clears the in-flight record of its key and returns. *)
Lemma fetch_inv_clear g t c q r :
  fetch_inv g -> callers g !! t = Some (Finishing c q r) ->
  fetch_inv {| inflight := delete (key q) (inflight g);
               results := results g; next := next g;
               callers := <[t := Returned c r]> (callers g);
               backend := backend g |}.
Proof.
  intros I Ht.
  destruct (inv_finishing _ _ I _ _ _ _ Ht) as [Hres Hm].
  assert (Hkey : forall t' th c' q',
             t <> t' -> callers g !! t' = Some th ->
             leads th = Some (c', q') -> key q <> key q').
  { intros t' th c' q' Hne Ht' Hl Hk. apply Hne.
    destruct (leads_inflight _ _ _ _ _ I Ht' Hl) as [Hm' _].
    rewrite <- Hk, Hm in Hm'. injection Hm' as <-.
    exact (inv_leader _ _ I _ _ _ _ _ _ _ Ht Ht' eq_refl Hl). }
  split; cbn [inflight results next callers backend].
  - intros t' c' q' H. inv_insert H.
    destruct (inv_running _ _ I _ _ _ H) as [Hr Hk]. split; [exact Hr|].
    rewrite lookup_delete_ne; [exact Hk|].
    exact (Hkey _ _ _ _ H0 H eq_refl).
  - intros t' c' q' r' H. inv_insert H.
    destruct (inv_finishing _ _ I _ _ _ _ H) as [Hr Hk]. split; [exact Hr|].
    rewrite lookup_delete_ne; [exact Hk|].
    exact (Hkey _ _ _ _ H0 H eq_refl).
  - intros t' c' H. inv_insert H. exact (inv_waiting _ _ I _ _ H).
  - intros t' c' r' H. inv_insert H.
    + exact Hres.
    + exact (inv_returned _ _ I _ _ _ H).
  - exact (inv_done _ _ I).
  - intros c' H. destruct (inv_pending _ _ I c' H) as [Hlog Hrun].
    split; [exact Hlog|]. intros Hc'.
    destruct (Hrun Hc') as (t' & q' & Ht').
    exists t', q'. rewrite lookup_insert_ne; [exact Ht'|].
    intros <-. rewrite Ht in Ht'. discriminate.
  - intros k c' H. apply lookup_delete_Some in H as [Hne H].
    destruct (inv_inflight _ _ I k c' H) as [Hc' (t' & th & q' & Ht' & Hl & Hk)].
    split; [exact Hc'|]. exists t', th, q'.
    rewrite lookup_insert_ne; [auto|].
    intros <-. rewrite Ht in Ht'. injection Ht' as <-.
    injection Hl as <- <-. congruence.
  - exact (inv_fresh _ _ I).
  - intros t1 t2 th1 th2 c' q1 q2 H1 H2 L1 L2.
    inv_insert H1. inv_insert H2.
    exact (inv_leader _ _ I _ _ _ _ _ _ _ H1 H2 L1 L2).
Qed.

(** A blocked caller receives the outcome of its call. *)
Lemma fetch_inv_wake g t c r :
  fetch_inv g -> callers g !! t = Some (Waiting c) ->
  results g !! c = Some r ->
  fetch_inv {| inflight := inflight g; results := results g; next := next g;
               callers := <[t := Returned c r]> (callers g);
               backend := backend g |}.
Proof.
  intros I Ht Hres. split; cbn [inflight results next callers backend].
  - intros t' c' q' H. inv_insert H. exact (inv_running _ _ I _ _ _ H).
  - intros t' c' q' r' H. inv_insert H. exact (inv_finishing _ _ I _ _ _ _ H).
  - intros t' c' H. inv_insert H. exact (inv_waiting _ _ I _ _ H).
  - intros t' c' r' H. inv_insert H.
    + exact Hres.
    + exact (inv_returned _ _ I _ _ _ H).
  - exact (inv_done _ _ I).
  - intros c' H. destruct (inv_pending _ _ I c' H) as [Hlog Hrun].
    split; [exact Hlog|]. intros Hc'.
    destruct (Hrun Hc') as (t' & q' & Ht').
    exists t', q'. rewrite lookup_insert_ne; [exact Ht'|].
    intros <-. rewrite Ht in Ht'. discriminate.
  - intros k c' H.
    destruct (inv_inflight _ _ I k c' H) as [Hc' (t' & th & q' & Ht' & Hl & Hk)].
    split; [exact Hc'|]. exists t', th, q'.
    rewrite lookup_insert_ne; [auto|].
    intros <-. rewrite Ht in Ht'. injection Ht' as <-. discriminate.
  - exact (inv_fresh _ _ I).
  - intros t1 t2 th1 th2 c' q1 q2 H1 H2 L1 L2.
    inv_insert H1. inv_insert H2.
    exact (inv_leader _ _ I _ _ _ _ _ _ _ H1 H2 L1 L2).
Qed.

(** Every action preserves the invariant. *)
Lemma fetch_inv_step a g g' :
  fetch_inv g -> step IP_String a g = Some g' -> fetch_inv g'.
Proof.
  intros I Hs. destruct a as [t q|t r|t|t]; cbn [step] in Hs.
  - destruct (callers g !! t) eqn:Ht; [discriminate|].
    destruct (inflight g !! key q) as [c|] eqn:Hm; injection Hs as <-.
    + eapply fetch_inv_join; eassumption.
    + apply fetch_inv_lead; assumption.
  - destruct (callers g !! t) as [[c q| | |]|] eqn:Ht; try discriminate.
    injection Hs as <-. apply fetch_inv_fn; assumption.
  - destruct (callers g !! t) as [[|c q r| |]|] eqn:Ht; try discriminate.
    injection Hs as <-. apply fetch_inv_clear; assumption.
  - destruct (callers g !! t) as [[| |c|]|] eqn:Ht; try discriminate.
    destruct (results g !! c) as [r|] eqn:Hr; [|discriminate].
    injection Hs as <-. apply fetch_inv_wake; assumption.
Qed.

Lemma fetch_inv_run sched g g' :
  fetch_inv g -> run sched g = Some g' -> fetch_inv g'.
Proof.
  revert g. induction sched as [|a sched IH]; intros g I Hr; cbn in Hr.
  - injection Hr as <-. exact I.
  - destruct (step IP_String a g) as [g1|] eqn:Hs; [|discriminate].
    apply (IH g1); [|exact Hr]. exact (fetch_inv_step a g g1 I Hs).
Qed.

Lemma fetch_inv_reachable sched g :
  run sched init = Some g -> fetch_inv g.
Proof. apply fetch_inv_run, fetch_inv_init. Qed.

(** Every caller belongs to a call that has been registered. *)
Lemma generation_lt g t th :
  fetch_inv g -> callers g !! t = Some th -> (generation th < next g)%nat.
Proof.
  intros I Ht. destruct th as [c q|c q r|c|c r]; cbn [generation].
  - exact (proj2 (leads_inflight _ _ _ _ _ I Ht eq_refl)).
  - exact (proj2 (leads_inflight _ _ _ _ _ I Ht eq_refl)).
  - exact (inv_waiting _ _ I _ _ Ht).
  - apply (inv_returned _ _ I) in Ht.
    destruct (Nat.lt_ge_cases c (next g)) as [Hlt|Hge]; [exact Hlt|].
    rewrite (inv_fresh _ _ I c Hge) in Ht. discriminate.
Qed.

Lemma invoked_at_most_one g c : fetch_inv g -> (length (invoked c g) <= 1)%nat.
Proof.
  intros I. destruct (results g !! c) as [r|] eqn:Hr.
  - destruct (inv_done _ _ I c r Hr) as [q ->]. simpl. lia.
  - destruct (inv_pending _ _ I c Hr) as [-> _]. simpl. lia.
Qed.

End FetchFacts.

(** C7. In every state the group reaches under any interleaving of its
    callers' steps:
    - at most one client operation has been invoked for each call
      (generation);
    - a caller that has returned belongs to a call for which exactly one
      operation was invoked, and what it received is that operation's
      outcome (value or error);
    - a key has a record in flight only while the leader of its call has not
      yet cleared it;
    - a new caller whose key has a call in flight joins that call and
      invokes nothing;
    - a blocked caller can receive the outcome as soon as its call has one,
      and until then the operation of its call is still running;
    - a running operation may return any outcome, which becomes the one
      operation recorded for its call;
    - the leader whose operation has completed clears the record of its key
      and returns;
    - a new caller whose key has no record in flight registers a fresh call:
      nothing has been invoked for it and no other caller belongs to it. *)
Theorem singleflight_generations {Discovery : Type}
    (IP_String : net.IP -> string)
    (sched : list (action Discovery)) (g : group Discovery) :
  run IP_String sched init = Some g ->
  (forall c, (length (invoked c g) <= 1)%nat) /\
  (forall t c r,
      callers g !! t = Some (Returned c r) ->
      exists q, invoked c g = [(c, q, r)]) /\
  (forall k c,
      inflight g !! k = Some c ->
      exists t th q,
        callers g !! t = Some th /\ leads th = Some (c, q) /\
        key IP_String q = k) /\
  (forall t q c,
      callers g !! t = None -> inflight g !! key IP_String q = Some c ->
      exists g',
        step IP_String (Call t q) g = Some g' /\
        callers g' !! t = Some (Waiting c) /\ backend g' = backend g) /\
  (forall t c,
      callers g !! t = Some (Waiting c) ->
      (exists r g',
          results g !! c = Some r /\
          step IP_String (Wake t) g = Some g' /\
          callers g' !! t = Some (Returned c r))
      \/ (results g !! c = None /\
          exists t' q, callers g !! t' = Some (Running c q))) /\
  (forall t c q r,
      callers g !! t = Some (Running c q) ->
      exists g',
        step IP_String (Fn t r) g = Some g' /\
        callers g' !! t = Some (Finishing c q r) /\
        invoked c g' = [(c, q, r)]) /\
  (forall t c q r,
      callers g !! t = Some (Finishing c q r) ->
      exists g',
        step IP_String (Clear t) g = Some g' /\
        inflight g' !! key IP_String q = None /\
        callers g' !! t = Some (Returned c r)) /\
  (forall t q,
      callers g !! t = None -> inflight g !! key IP_String q = None ->
      exists g',
        step IP_String (Call t q) g = Some g' /\
        callers g' !! t = Some (Running (next g) q) /\
        invoked (next g) g' = [] /\
        forall t' th,
          t' <> t -> callers g' !! t' = Some th -> generation th <> next g).
Proof.
  intros Hrun. pose proof (fetch_inv_reachable IP_String sched g Hrun) as I.
  repeat apply conj.
  - intros c. exact (invoked_at_most_one IP_String g c I).
  - intros t c r Ht. apply (inv_done _ _ I). exact (inv_returned _ _ I _ _ _ Ht).
  - intros k c Hk. exact (proj2 (inv_inflight _ _ I k c Hk)).
  - intros t q c Ht Hm. cbn [step]. rewrite Ht, Hm.
    eexists. split; [reflexivity|]. cbn [callers backend].
    split; [apply lookup_insert_eq | reflexivity].
  - intros t c Ht. destruct (results g !! c) as [r|] eqn:Hr.
    + left. exists r. cbn [step]. rewrite Ht, Hr.
      eexists. split; [reflexivity|]. split; [reflexivity|].
      cbn [callers]. apply lookup_insert_eq.
    + right. split; [reflexivity|].
      apply (inv_pending _ _ I c Hr). exact (inv_waiting _ _ I _ _ Ht).
  - intros t c q r Ht. cbn [step]. rewrite Ht.
    eexists. split; [reflexivity|]. cbn [callers].
    split; [apply lookup_insert_eq|].
    destruct (inv_running _ _ I _ _ _ Ht) as [Hres _].
    destruct (inv_pending _ _ I c Hres) as [Hlog _].
    unfold invoked in *. cbn [backend]. rewrite filter_app, Hlog.
    rewrite filter_cons_True by reflexivity. reflexivity.
  - intros t c q r Ht. cbn [step]. rewrite Ht.
    eexists. split; [reflexivity|]. cbn [inflight callers].
    split; [apply lookup_delete_eq | apply lookup_insert_eq].
  - intros t q Ht Hm. cbn [step]. rewrite Ht, Hm.
    eexists. split; [reflexivity|]. cbn [callers].
    split; [apply lookup_insert_eq|]. split.
    + apply (inv_pending _ _ I). apply (inv_fresh _ _ I). lia.
    + intros t' th Hne Ht'. rewrite lookup_insert_ne in Ht' by congruence.
      pose proof (generation_lt IP_String g t' th I Ht'). lia.
Qed.

Lemma singleflight_generations_witness :
  (forall c, (length (invoked c example_group) <= 1)%nat) /\
  (forall t c r,
      callers example_group !! t = Some (Returned c r) ->
      exists q, invoked c example_group = [(c, q, r)]) /\
  (forall k c,
      inflight example_group !! k = Some c ->
      exists t th q,
        callers example_group !! t = Some th /\ leads th = Some (c, q) /\
        key example_IP_String q = k) /\
  (forall t q c,
      callers example_group !! t = None ->
      inflight example_group !! key example_IP_String q = Some c ->
      exists g',
        step example_IP_String (Call t q) example_group = Some g' /\
        callers g' !! t = Some (Waiting c) /\
        backend g' = backend example_group) /\
  (forall t c,
      callers example_group !! t = Some (Waiting c) ->
      (exists r g',
          results example_group !! c = Some r /\
          step example_IP_String (Wake t) example_group = Some g' /\
          callers g' !! t = Some (Returned c r))
      \/ (results example_group !! c = None /\
          exists t' q, callers example_group !! t' = Some (Running c q))) /\
  (forall t c q r,
      callers example_group !! t = Some (Running c q) ->
      exists g',
        step example_IP_String (Fn t r) example_group = Some g' /\
        callers g' !! t = Some (Finishing c q r) /\
        invoked c g' = [(c, q, r)]) /\
  (forall t c q r,
      callers example_group !! t = Some (Finishing c q r) ->
      exists g',
        step example_IP_String (Clear t) example_group = Some g' /\
        inflight g' !! key example_IP_String q = None /\
        callers g' !! t = Some (Returned c r)) /\
  (forall t q,
      callers example_group !! t = None ->
      inflight example_group !! key example_IP_String q = None ->
      exists g',
        step example_IP_String (Call t q) example_group = Some g' /\
        callers g' !! t = Some (Running (next example_group) q) /\
        invoked (next example_group) g' = [] /\
        forall t' th,
          t' <> t -> callers g' !! t' = Some th ->
          generation th <> next example_group).
Proof.
  apply (singleflight_generations example_IP_String example_schedule
           example_group).
  vm_compute. reflexivity.
Defined.

Example singleflight_example :
  callers example_group =
    {[ 0%nat := Returned 0 (inl "hardware"%string);
       1%nat := Returned 0 (inl "hardware"%string);
       2%nat := Returned 0 (inl "hardware"%string);
       3%nat := Returned 1 (inr "not found"%string) ]}
  /\ backend example_group =
       [(0%nat, example_discover, inl "hardware"%string);
        (1%nat, example_discover, inr "not found"%string)]
  /\ inflight example_group = ∅.
Proof. repeat split; vm_compute; reflexivity. Qed.

(** * Further properties of the code *)

(** ** Address arithmetic beyond the pool *)

Section AddressFacts.
Import GoInt GoIntFacts.

(** The four bytes cut out of a machine word carry its low 32 bits. *)
Lemma be32_split_mod w :
  0 <= w ->
  be32 (to_byte (Z.land (Z.shiftr w 24) 255))
       (to_byte (Z.land (Z.shiftr w 16) 255))
       (to_byte (Z.land (Z.shiftr w 8) 255))
       (to_byte (Z.land w 255)) = w mod 2 ^ 32.
Proof.
  intros Hw. unfold be32.
  rewrite !of_byte_to_byte.
  change 255 with (Z.ones 8).
  rewrite !Z.land_ones by lia.
  rewrite !Z.shiftr_div_pow2 by lia.
  rewrite !Z.mod_mod by lia.
  change (2 ^ 8) with 256. change (2 ^ 16) with 65536.
  change (2 ^ 24) with 16777216. change (2 ^ 32) with 4294967296.
  Z.div_mod_to_equations. lia.
Qed.

Lemma be32_inj a0 a1 a2 a3 b0 b1 b2 b3 :
  be32 a0 a1 a2 a3 = be32 b0 b1 b2 b3 ->
  a0 = b0 /\ a1 = b1 /\ a2 = b2 /\ a3 = b3.
Proof.
  unfold be32. intros H.
  pose proof (of_byte_range a0). pose proof (of_byte_range a1).
  pose proof (of_byte_range a2). pose proof (of_byte_range a3).
  pose proof (of_byte_range b0). pose proof (of_byte_range b1).
  pose proof (of_byte_range b2). pose proof (of_byte_range b3).
  assert (E0 : of_byte a0 = of_byte b0) by lia.
  assert (E1 : of_byte a1 = of_byte b1) by lia.
  assert (E2 : of_byte a2 = of_byte b2) by lia.
  assert (E3 : of_byte a3 = of_byte b3) by lia.
  rewrite <- (to_byte_of_byte a0), <- (to_byte_of_byte a1),
    <- (to_byte_of_byte a2), <- (to_byte_of_byte a3), E0, E1, E2, E3.
  rewrite !to_byte_of_byte. auto.
Qed.

Lemma ip_value_IPv4 a b c d :
  ip_value (net.IPv4 a b c d) = Some (be32 a b c d).
Proof. unfold ip_value. rewrite To4_IPv4. apply Uint32_four. Qed.

Lemma ip_value_range ip v : ip_value ip = Some v -> 0 <= v < 2 ^ 32.
Proof.
  intros H. destruct (ip_value_inv _ _ H) as (b0 & b1 & b2 & b3 & _ & ->).
  apply be32_range.
Qed.

Lemma ip_value_None ip : ip_value ip = None <-> net.To4 ip = [].
Proof.
  unfold ip_value. destruct (To4_length ip) as [Hl|Hnil].
  - destruct (net.To4 ip) as [|b0 [|b1 [|b2 [|b3 [|? ?]]]]]; try discriminate.
    rewrite Uint32_four. split; discriminate.
  - rewrite Hnil. split; reflexivity.
Qed.

(** The bytes [IPAdd] returns, on an IPv4 address of value [v]. *)
Lemma IPAdd_bytes ip v add :
  ip_value ip = Some v ->
  exists a b c d,
    IPAdd ip add = Some (net.IPv4 a b c d) /\
    be32 a b c d = (v + add) mod 2 ^ 32.
Proof.
  intros Hv.
  destruct (ip_value_inv _ _ Hv) as (b0 & b1 & b2 & b3 & H4 & ->).
  pose proof (be32_range b0 b1 b2 b3) as Hr.
  unfold IPAdd. rewrite H4. cbn [lookup list_lookup mbind option_bind].
  rewrite !Z.shiftl_mul_pow2 by lia.
  fold (be32 b0 b1 b2 b3).
  do 4 eexists. split; [reflexivity|].
  rewrite be32_split_mod by (apply Z.mod_pos_bound; reflexivity).
  unfold GoInt.to_uint, GoInt.uint_bits.
  rewrite (Z.mod_small (be32 b0 b1 b2 b3)) by lia.
  rewrite Zplus_mod_idemp_r.
  change (2 ^ 64) with (2 ^ 32 * 2 ^ 32).
  rewrite Z.rem_mul_r by lia.
  rewrite Z.mul_comm, Z.mod_add by lia. apply Z.mod_mod. lia.
Qed.

Lemma IPAdd_None ip n : IPAdd ip n = None <-> ip_value ip = None.
Proof.
  split.
  - intros H. destruct (ip_value ip) as [v|] eqn:Hv; [|reflexivity].
    destruct (IPAdd_bytes ip v n Hv) as (? & ? & ? & ? & E & _). congruence.
  - intros Hv. apply ip_value_None in Hv. unfold IPAdd. rewrite Hv.
    reflexivity.
Qed.

Lemma IPRange_None a b :
  IPRange a b = None <-> ip_value a = None \/ ip_value b = None.
Proof.
  unfold IPRange, ip_value.
  destruct (BigEndian_Uint32 (net.To4 b)) as [hi|];
    destruct (BigEndian_Uint32 (net.To4 a)) as [lo|];
    cbn [mbind option_bind]; split; try discriminate; try tauto.
  intros [H|H]; discriminate.
Qed.

Lemma IPRange_values a b va vb :
  ip_value a = Some va -> ip_value b = Some vb ->
  IPRange a b = Some (vb - va + 1).
Proof.
  unfold IPRange, ip_value. intros -> ->. reflexivity.
Qed.

End AddressFacts.

(** X1. [IPAdd] wraps around: on an IPv4 address of value [v] it returns,
    for every integer [add] (negative ones included), an address in 16-byte
    form whose value is [v + add] reduced modulo 2^32. *)
Theorem IPAdd_wraps (ip : net.IP) (v add : Z) :
  ip_value ip = Some v ->
  exists b,
    IPAdd ip add = Some b /\ length b = 16%nat /\
    ip_value b = Some ((v + add) mod 2 ^ 32).
Proof.
  intros Hv. destruct (IPAdd_bytes ip v add Hv) as (a & b & c & d & E & V).
  exists (net.IPv4 a b c d). split; [exact E|]. split; [reflexivity|].
  rewrite ip_value_IPv4, V. reflexivity.
Qed.

Lemma IPAdd_wraps_witness :
  exists b,
    IPAdd [xff; xff; xff; xff] 2 = Some b /\ length b = 16%nat /\
    ip_value b = Some ((4294967295 + 2) mod 2 ^ 32).
Proof.
  apply (IPAdd_wraps [xff; xff; xff; xff] 4294967295 2). reflexivity.
Defined.

(** X2. The address functions panic exactly on addresses that are not
    IPv4: [IPAdd] when its base has no 4-byte form, [IPRange] when one of
    its two arguments has none. *)
Theorem address_panics (a b : net.IP) (n : Z) :
  (IPAdd a n = None <-> net.To4 a = []) /\
  (IPRange a b = None <-> net.To4 a = [] \/ net.To4 b = []).
Proof.
  rewrite <- !ip_value_None. split.
  - apply IPAdd_None.
  - apply IPRange_None.
Qed.

(** X3. Offsets add up: adding [m] to the result of adding [n] gives the
    very address obtained by adding [n + m] at once, wrap-around included. *)
Theorem IPAdd_IPAdd (a b : net.IP) (n m : Z) :
  IPAdd a n = Some b -> IPAdd b m = IPAdd a (n + m).
Proof.
  intros Hab.
  destruct (ip_value a) as [v|] eqn:Hv.
  2: { apply (IPAdd_None a n) in Hv. congruence. }
  destruct (IPAdd_bytes a v n Hv) as (a0 & a1 & a2 & a3 & E1 & V1).
  rewrite E1 in Hab. injection Hab as <-.
  assert (Hb : ip_value (net.IPv4 a0 a1 a2 a3) = Some ((v + n) mod 2 ^ 32))
    by (rewrite ip_value_IPv4; congruence).
  destruct (IPAdd_bytes _ _ m Hb) as (c0 & c1 & c2 & c3 & E2 & V2).
  destruct (IPAdd_bytes a v (n + m) Hv) as (d0 & d1 & d2 & d3 & E3 & V3).
  rewrite E2, E3. f_equal.
  assert (E : be32 c0 c1 c2 c3 = be32 d0 d1 d2 d3).
  { rewrite V2, V3. rewrite Zplus_mod_idemp_l. f_equal. lia. }
  apply be32_inj in E as (-> & -> & -> & ->). reflexivity.
Qed.

Lemma IPAdd_IPAdd_witness :
  IPAdd (net.IPv4 xc0 xa8 x01 x20) (-3) = IPAdd [xc0; xa8; x01; x02] (30 + -3).
Proof.
  apply (IPAdd_IPAdd [xc0; xa8; x01; x02] (net.IPv4 xc0 xa8 x01 x20) 30 (-3)).
  reflexivity.
Defined.

(** X4. [IPRange] counts in both directions: swapping the arguments turns
    the count [r] into [2 - r], an address is at count 1 from itself and
    from no address of another value, and a count never leaves the interval
    from 2 - 2^32 to 2^32. *)
Theorem IPRange_swap (a b : net.IP) (r : Z) :
  IPRange a b = Some r ->
  IPRange b a = Some (2 - r) /\ IPRange a a = Some 1 /\
  2 - 2 ^ 32 <= r <= 2 ^ 32 /\
  (r = 1 <-> ip_value a = ip_value b).
Proof.
  intros Hr.
  destruct (ip_value a) as [va|] eqn:Ha.
  2: { rewrite (proj2 (IPRange_None a b)) in Hr by auto. discriminate. }
  destruct (ip_value b) as [vb|] eqn:Hb.
  2: { rewrite (proj2 (IPRange_None a b)) in Hr by auto. discriminate. }
  rewrite (IPRange_values a b va vb Ha Hb) in Hr. injection Hr as <-.
  rewrite (IPRange_values b a vb va Hb Ha), (IPRange_values a a va va Ha Ha).
  pose proof (ip_value_range _ _ Ha). pose proof (ip_value_range _ _ Hb).
  repeat split; try (f_equal; lia); try lia.
  - intros H1. f_equal. lia.
  - intros [= ->]. lia.
Qed.

Lemma IPRange_swap_witness :
  IPRange [x0a; x00; x00; x09] [x0a; x00; x00; x01] = Some (2 - 9) /\
  IPRange [x0a; x00; x00; x01] [x0a; x00; x00; x01] = Some 1 /\
  2 - 2 ^ 32 <= 9 <= 2 ^ 32 /\
  (9 = 1 <->
   ip_value [x0a; x00; x00; x01] = ip_value [x0a; x00; x00; x09]).
Proof.
  apply (IPRange_swap [x0a; x00; x00; x01] [x0a; x00; x00; x09] 9).
  reflexivity.
Defined.

(** ** The lease table as a whole *)

Section LeaseFacts.

Lemma leased_to_nic s c k :
  leased_to s c k <->
  exists l, leases s !! k = Some l /\ nic l = net.HardwareAddr_String c.
Proof.
  unfold leased_to. split.
  - intros H. eexists. split; [exact H | reflexivity].
  - intros ([n] & Hl & Hn). cbn in Hn. subst n. exact Hl.
Qed.

Lemma keys_in_range_lookup s k l :
  keys_in_range s -> leases s !! k = Some l -> 0 <= k < leaseRange s.
Proof. intros Hk Hl. exact (Hk k l Hl). Qed.

(** What a returning [addLease] has done: nothing, or the insertion of a
    binding at a free offset of the pool. *)
Lemma addLease_cases c a s s' :
  addLease c a s = Some s' ->
  s' = s \/
  exists r,
    IPRange (start s) a = Some r /\ 0 <= r - 1 < leaseRange s /\
    leases s !! (r - 1) = None /\
    s' = set_leases
           (<[r - 1 := Lease (net.HardwareAddr_String c)]> (leases s)) s.
Proof.
  unfold addLease. destruct (IPRange (start s) a) as [r|] eqn:Hr;
    cbn [mbind option_bind]; [|discriminate].
  destruct (bool_decide (r - 1 >= 0)) eqn:B1;
    destruct (bool_decide (r - 1 < leaseRange s)) eqn:B2; cbn [andb];
    try (intros [= <-]; left; reflexivity).
  apply bool_decide_eq_true in B1, B2.
  unfold map_index. destruct (leases s !! (r - 1)) as [l|] eqn:El;
    cbn [negb orb].
  - destruct (String.eqb_spec (nic l) (net.HardwareAddr_String c)) as [E|E];
      intros [= <-]; left; [|reflexivity].
    rewrite insert_id; [apply set_leases_id|].
    rewrite El. destruct l as [n]. cbn in E. congruence.
  - intros [= <-]. right. exists r. repeat split; try lia; assumption.
Qed.

(** A table whose keys are offsets of the pool is full exactly when it has
    as many entries as the pool has offsets. *)
Lemma full_iff_size s :
  keys_in_range s -> 0 <= leaseRange s ->
  (forall j, 0 <= j < leaseRange s -> is_Some (leases s !! j)) <->
  Z.of_nat (size (leases s)) = leaseRange s.
Proof.
  intros Hk Hn.
  set (R := list_to_set (seqZ 0 (leaseRange s)) : gset Z).
  assert (HR : forall j, j ∈ R <-> 0 <= j < leaseRange s).
  { intros j. unfold R. rewrite elem_of_list_to_set, elem_of_seqZ. lia. }
  assert (Hsz : size R = Z.to_nat (leaseRange s)).
  { unfold R. rewrite size_list_to_set by apply NoDup_seqZ.
    apply length_seqZ. }
  assert (Hsub : dom (leases s) ⊆ R).
  { intros j Hj. apply elem_of_dom in Hj as [l Hl]. apply HR.
    exact (keys_in_range_lookup s j l Hk Hl). }
  rewrite <- (size_dom (D := gset Z)). split.
  - intros Hfull.
    assert (E : dom (leases s) = R).
    { apply set_eq. intros j. split; [apply Hsub|].
      intros Hj. apply elem_of_dom, Hfull, HR, Hj. }
    rewrite E, Hsz. lia.
  - intros Hsize j Hj.
    assert (E : dom (leases s) = R).
    { apply set_subseteq_size_eq; [exact Hsub|]. lia. }
    apply elem_of_dom. rewrite E. apply HR, Hj.
Qed.

Lemma size_le_range s :
  keys_in_range s -> 0 <= leaseRange s ->
  Z.of_nat (size (leases s)) <= leaseRange s.
Proof.
  intros Hk Hn.
  set (R := list_to_set (seqZ 0 (leaseRange s)) : gset Z).
  assert (Hsub : dom (leases s) ⊆ R).
  { intros j Hj. apply elem_of_dom in Hj as [l Hl]. unfold R.
    rewrite elem_of_list_to_set, elem_of_seqZ.
    pose proof (keys_in_range_lookup s j l Hk Hl). lia. }
  apply subseteq_size in Hsub.
  rewrite size_dom in Hsub. unfold R in Hsub.
  rewrite size_list_to_set, length_seqZ in Hsub by apply NoDup_seqZ. lia.
Qed.

(** The scan passes over taken offsets only. *)
Lemma scan_skips m i n k :
  scan m i n = Some k -> forall j, i <= j < k -> is_Some (m !! j).
Proof.
  revert i. induction n as [|n IH]; intros i; cbn [scan]; [discriminate|].
  unfold map_index. destruct (m !! i) eqn:E; cbn [negb].
  - intros H j Hj. destruct (decide (j = i)) as [->|Hne]; [eauto|].
    apply (IH (i + 1) H). lia.
  - intros [= <-] j Hj. lia.
Qed.

Lemma releaseLease_config order c s :
  same_config s (releaseLease order c s).
Proof. repeat split. Qed.

Lemma release_loop_sub macs order m k l :
  release_loop macs order m !! k = Some l -> m !! k = Some l.
Proof.
  induction order as [|[i v] rest IH]; cbn [release_loop]; [auto|].
  destruct (String.eqb (nic v) macs); [|exact IH].
  intros H. apply lookup_delete_Some in H. tauto.
Qed.

End LeaseFacts.

(** X5. [addLease] never removes or changes a binding that exists: every
    entry of the table is still there afterwards with the same client, and
    the table has the same number of entries or one more. *)
Theorem addLease_keeps_bindings
    (c : net.HardwareAddr) (a : net.IP) (s s' : DHCPServer) :
  addLease c a s = Some s' ->
  (forall k l, leases s !! k = Some l -> leases s' !! k = Some l) /\
  (size (leases s) <= size (leases s') <= S (size (leases s)))%nat.
Proof.
  intros H. destruct (addLease_cases c a s s' H)
    as [->|(r & Hr & Hin & Hfree & ->)].
  - split; [auto | lia].
  - cbn [leases set_leases]. split.
    + intros k l Hl. rewrite lookup_insert_ne; [exact Hl|]. congruence.
    + rewrite map_size_insert_None by exact Hfree. lia.
Qed.

Lemma addLease_keeps_bindings_witness :
  (forall k l, leases example_server !! k = Some l ->
               leases (set_leases
                         (<[2%Z := Lease "02:00:00:00:00:02"]>
                            (leases example_server)) example_server) !! k
               = Some l) /\
  (size (leases example_server)
   <= size (leases (set_leases
                      (<[2%Z := Lease "02:00:00:00:00:02"]>
                         (leases example_server)) example_server))
   <= S (size (leases example_server)))%nat.
Proof.
  apply (addLease_keeps_bindings [x02; x00; x00; x00; x00; x02]
           [x0a; x00; x00; x03] example_server).
  reflexivity.
Defined.

(** X6. A returning [addLease] keeps the keys of the table inside the pool
    and leaves the pool configuration (start, subnet, gateway, size)
    alone. *)
Theorem addLease_keeps_invariant
    (c : net.HardwareAddr) (a : net.IP) (s s' : DHCPServer) :
  keys_in_range s ->
  addLease c a s = Some s' ->
  keys_in_range s' /\ same_config s s'.
Proof.
  intros Hk Hadd.
  destruct (addLease_cases c a s s' Hadd)
    as [->|(r & Hr & Hin & Hfree & ->)].
  - split; [exact Hk | repeat split].
  - split; [|repeat split].
    intros k l. cbn [leases set_leases leaseRange].
    intros Hl. apply lookup_insert_Some in Hl as [[<- _]|[_ Hl]].
    + exact Hin.
    + exact (keys_in_range_lookup s k l Hk Hl).
Qed.

Lemma addLease_keeps_invariant_witness :
  keys_in_range example_server /\
  keys_in_range (set_leases
                   (<[2 := Lease "02:00:00:00:00:02"]> (leases example_server))
                   example_server) /\
  same_config example_server
    (set_leases
       (<[2 := Lease "02:00:00:00:00:02"]> (leases example_server))
       example_server).
Proof.
  assert (Hk : keys_in_range example_server)
    by (unfold keys_in_range; apply (bool_decide_unpack _); vm_compute; exact I).
  split; [exact Hk|].
  apply (addLease_keeps_invariant [x02; x00; x00; x00; x00; x02]
           [x0a; x00; x00; x03] example_server);
    [exact Hk | reflexivity].
Defined.

(** X7. [addLease] panics exactly when the start of the pool or the
    requested address is not an IPv4 address; the client and the table play
    no role. *)
Theorem addLease_panics (c : net.HardwareAddr) (a : net.IP) (s : DHCPServer) :
  addLease c a s = None <-> net.To4 (start s) = [] \/ net.To4 a = [].
Proof.
  rewrite <- !ip_value_None, <- IPRange_None. split.
  - intros H. destruct (IPRange (start s) a) as [r|] eqn:Hr; [|reflexivity].
    destruct (addLease_total c a s r Hr) as [s' Hs']. congruence.
  - intros Hr. unfold addLease. rewrite Hr. reflexivity.
Qed.

(** X8. For an address whose offset [k] lies in the pool, the table after
    [addLease c] has [k] leased to [c] exactly when [k] was free or already
    leased to [c] before. *)
Theorem addLease_records_iff
    (c : net.HardwareAddr) (a : net.IP) (s : DHCPServer) (r : Z) :
  IPRange (start s) a = Some r ->
  0 <= r - 1 < leaseRange s ->
  exists s',
    addLease c a s = Some s' /\
    (leased_to s' c (r - 1) <->
     leases s !! (r - 1) = None \/ leased_to s c (r - 1)).
Proof.
  intros Hr Hin.
  destruct (leases s !! (r - 1)) as [l|] eqn:El.
  - destruct (decide (nic l = net.HardwareAddr_String c)) as [E|E].
    + assert (Hl : leased_to s c (r - 1)).
      { apply leased_to_nic. eauto. }
      exists s. split; [exact (addLease_same c a s r Hr Hl)|]. tauto.
    + exists s. split; [exact (addLease_other c a s r l Hr El E)|].
      split.
      * intros Hl. apply leased_to_nic in Hl as (l' & Hl' & Hn). right.
        congruence.
      * intros [H|H]; [discriminate|].
        apply leased_to_nic in H as (l' & Hl' & Hn). congruence.
  - eexists. split; [exact (addLease_free c a s r Hr Hin El)|].
    unfold leased_to. cbn [leases set_leases]. rewrite lookup_insert_eq.
    tauto.
Qed.

Lemma addLease_records_iff_witness :
  exists s',
    addLease [x02; x00; x00; x00; x00; x02] [x0a; x00; x00; x02]
      example_server = Some s' /\
    (leased_to s' [x02; x00; x00; x00; x00; x02] (2 - 1) <->
     leases example_server !! (2 - 1) = None \/
     leased_to example_server [x02; x00; x00; x00; x00; x02] (2 - 1)).
Proof.
  apply (addLease_records_iff [x02; x00; x00; x00; x00; x02]
           [x0a; x00; x00; x02] example_server 2);
    [reflexivity | simpl; lia].
Defined.

(** X9. [freeLease] probes from the drawn index [b = r mod leaseRange]
    onwards and wraps once: the offset [k] it returns is the first free one
    in that order, so every offset from [b] up to [k], or from [b] to the end
    of the pool and from 0 up to [k] when [k] lies before [b], is taken. *)
Theorem freeLease_first_free (r : Z) (s : DHCPServer) (k : Z) :
  freeLease r s = Some k -> k <> -1 ->
  let b := r mod leaseRange s in
  (b <= k /\ forall j, b <= j < k -> is_Some (leases s !! j))
  \/ (k < b /\
      forall j, b <= j < leaseRange s \/ 0 <= j < k ->
                is_Some (leases s !! j)).
Proof.
  intros Hf Hk b. unfold freeLease, rand_Intn in Hf.
  case_bool_decide as Hn; [discriminate|].
  cbn [mbind option_bind scan_ranges] in Hf. fold b in Hf.
  destruct (scan (leases s) b _) as [k1|] eqn:E1; cbn [default] in Hf.
  - injection Hf as <-. left. split.
    + apply scan_Some in E1. lia.
    + exact (scan_skips _ _ _ _ E1).
  - destruct (scan (leases s) 0 _) as [k2|] eqn:E2; cbn [default] in Hf;
      injection Hf as <-; [|congruence].
    right. pose proof (Z.mod_pos_bound r (leaseRange s) ltac:(lia)) as Hb.
    fold b in Hb. split.
    + apply scan_Some in E2. lia.
    + intros j [Hj|Hj].
      * apply (scan_None _ _ _ E1). lia.
      * exact (scan_skips _ _ _ _ E2 j Hj).
Qed.

Lemma freeLease_first_free_witness :
  (7 mod leaseRange example_server <= 2 /\
   forall j, 7 mod leaseRange example_server <= j < 2 ->
             is_Some (leases example_server !! j))
  \/ (2 < 7 mod leaseRange example_server /\
      forall j, 7 mod leaseRange example_server <= j
                < leaseRange example_server \/ 0 <= j < 2 ->
                is_Some (leases example_server !! j)).
Proof.
  apply (freeLease_first_free 7 example_server 2); [reflexivity | lia].
Defined.

(** X10. While the keys of the table are offsets of a non-empty pool, the
    table never has more entries than the pool has offsets, and [freeLease]
    returns -1 exactly when it has as many. *)
Theorem freeLease_none_iff_full (r : Z) (s : DHCPServer) :
  keys_in_range s -> 0 < leaseRange s ->
  Z.of_nat (size (leases s)) <= leaseRange s /\
  (freeLease r s = Some (-1) <-> Z.of_nat (size (leases s)) = leaseRange s).
Proof.
  intros Hk Hn. split; [apply size_le_range; [exact Hk | lia]|].
  rewrite <- (full_iff_size s Hk) by lia. split.
  - intros Hf. destruct (freeLease_Some _ _ _ Hf) as [[_ Hfull]|[Hin _]];
      [exact Hfull | lia].
  - intros Hfull.
    destruct (rand_Intn_range r (leaseRange s) Hn) as (b & Eb & Hb).
    destruct (freeLease r s) as [k|] eqn:E.
    + destruct (freeLease_Some _ _ _ E) as [[-> _]|[Hin Hfree]];
        [reflexivity|].
      destruct (Hfull k Hin) as [l Hl]. congruence.
    + unfold freeLease in E. rewrite Eb in E. discriminate.
Qed.

Lemma freeLease_none_iff_full_witness :
  Z.of_nat (size (leases example_server)) <= leaseRange example_server /\
  (freeLease 5 example_server = Some (-1) <->
   Z.of_nat (size (leases example_server)) = leaseRange example_server).
Proof.
  apply (freeLease_none_iff_full 5 example_server); [|simpl; lia].
  unfold keys_in_range. apply (bool_decide_unpack _). vm_compute. exact I.
Defined.

(** X11. Whatever the traversal, [releaseLease] only removes: every entry
    of the table afterwards was an entry before, the keys stay inside the
    pool, and the pool configuration is untouched. *)
Theorem releaseLease_only_removes
    (order : list (Z * lease)) (c : net.HardwareAddr) (s : DHCPServer) :
  (forall k l, leases (releaseLease order c s) !! k = Some l ->
               leases s !! k = Some l) /\
  (keys_in_range s -> keys_in_range (releaseLease order c s)) /\
  same_config s (releaseLease order c s).
Proof.
  split; [|split].
  - intros k l Hl. cbn [releaseLease leases set_leases] in Hl.
    exact (release_loop_sub _ _ _ _ _ Hl).
  - intros Hk k l Hl. cbn [releaseLease leases set_leases leaseRange] in *.
    apply release_loop_sub in Hl. exact (keys_in_range_lookup s k l Hk Hl).
  - apply releaseLease_config.
Qed.

(** X12. A release takes away exactly one lease of the client that has one:
    the table shrinks by one entry, and a client that holds a second lease
    still holds a lease afterwards. *)
Theorem releaseLease_removes_one
    (order : list (Z * lease)) (c : net.HardwareAddr) (s : DHCPServer)
    (k0 : Z) :
  range_order (leases s) order ->
  leased_to s c k0 ->
  size (leases s) = S (size (leases (releaseLease order c s))) /\
  (forall k1, k1 <> k0 -> leased_to s c k1 ->
              exists k, leased_to (releaseLease order c s) c k).
Proof.
  intros Hord H0.
  destruct (releaseLease_cases order c s Hord)
    as [(i & l & Hl & Hn & Hrel)|[Hall _]].
  - rewrite Hrel. cbn [leases set_leases]. split.
    + rewrite map_size_delete, Hl.
      assert (size (leases s) <> 0%nat); [|lia].
      intros Hz. apply map_size_empty_inv in Hz. rewrite Hz in Hl.
      rewrite lookup_empty in Hl. discriminate.
    + intros k1 Hne H1.
      destruct (decide (i = k0)) as [->|Hi].
      * exists k1. unfold leased_to. cbn [leases set_leases].
        rewrite lookup_delete_ne by congruence. exact H1.
      * exists k0. unfold leased_to. cbn [leases set_leases].
        rewrite lookup_delete_ne by congruence. exact H0.
  - exfalso. exact (Hall k0 _ H0 eq_refl).
Qed.

Lemma releaseLease_removes_one_witness :
  size (leases example_server)
  = S (size (leases (releaseLease example_order example_mac example_server)))
  /\ (forall k1, k1 <> 1 -> leased_to example_server example_mac k1 ->
        exists k,
          leased_to (releaseLease example_order example_mac example_server)
            example_mac k).
Proof.
  apply (releaseLease_removes_one example_order example_mac example_server 1).
  - unfold range_order. vm_compute. reflexivity.
  - reflexivity.
Defined.

(** X13. After the release of a client that held a lease, an allocation
    succeeds: [freeLease] returns a free offset of the pool, for every
    draw. *)
Theorem releaseLease_makes_room
    (order : list (Z * lease)) (c : net.HardwareAddr) (s : DHCPServer)
    (k0 r : Z) :
  range_order (leases s) order ->
  keys_in_range s ->
  leased_to s c k0 ->
  exists k,
    freeLease r (releaseLease order c s) = Some k /\
    0 <= k < leaseRange s /\
    leases (releaseLease order c s) !! k = None.
Proof.
  intros Hord Hk H0.
  destruct (releaseLease_cases order c s Hord)
    as [(i & l & Hl & Hn & Hrel)|[Hall _]].
  - rewrite Hrel.
    apply (freeLease_finds r (set_leases (delete i (leases s)) s) i).
    + exact (keys_in_range_lookup s i l Hk Hl).
    + cbn [leases set_leases]. apply lookup_delete_eq.
  - exfalso. exact (Hall k0 _ H0 eq_refl).
Qed.

Lemma releaseLease_makes_room_witness :
  exists k,
    freeLease 1 (releaseLease example_order example_mac example_server)
      = Some k /\
    0 <= k < leaseRange example_server /\
    leases (releaseLease example_order example_mac example_server) !! k
      = None.
Proof.
  apply (releaseLease_makes_room example_order example_mac example_server
           1 1).
  - unfold range_order. vm_compute. reflexivity.
  - unfold keys_in_range. apply (bool_decide_unpack _). vm_compute. exact I.
  - reflexivity.
Defined.

(** X14. When a client holds at most one lease, a release leaves no lease
    of that client in the table, and a second release, in any traversal of
    the new table, changes nothing. *)
Theorem releaseLease_single
    (order order' : list (Z * lease)) (c : net.HardwareAddr)
    (s : DHCPServer) :
  range_order (leases s) order ->
  range_order (leases (releaseLease order c s)) order' ->
  (forall k1 k2, leased_to s c k1 -> leased_to s c k2 -> k1 = k2) ->
  (forall k, ~ leased_to (releaseLease order c s) c k) /\
  releaseLease order' c (releaseLease order c s) = releaseLease order c s.
Proof.
  intros Hord Hord' Huniq.
  assert (Hgone : forall k, ~ leased_to (releaseLease order c s) c k).
  { intros k Hk.
    destruct (releaseLease_cases order c s Hord)
      as [(i & l & Hl & Hn & Hrel)|[Hall Hsame]].
    - rewrite Hrel in Hk. unfold leased_to in Hk. cbn [leases set_leases] in Hk.
      apply lookup_delete_Some in Hk as [Hne Hk].
      apply Hne, Huniq; [|exact Hk].
      apply leased_to_nic. eauto.
    - rewrite Hsame in Hk. exact (Hall k _ Hk eq_refl). }
  split; [exact Hgone|].
  destruct (releaseLease_cases order' c _ Hord')
    as [(i & l & Hl & Hn & _)|[_ Hsame]]; [|exact Hsame].
  exfalso. apply (Hgone i). apply leased_to_nic. eauto.
Qed.

Lemma releaseLease_single_witness :
  (forall k,
      ~ leased_to (releaseLease example_order example_mac example_server)
          example_mac k) /\
  releaseLease [] example_mac
    (releaseLease example_order example_mac example_server)
  = releaseLease example_order example_mac example_server.
Proof.
  apply (releaseLease_single example_order [] example_mac example_server).
  - unfold range_order. vm_compute. reflexivity.
  - unfold range_order. vm_compute. reflexivity.
  - intros k1 k2 H1 H2.
    destruct (decide (k1 = 1)) as [->|N1];
      [|unfold leased_to in H1; cbn in H1;
        rewrite lookup_singleton_ne in H1 by congruence; discriminate].
    destruct (decide (k2 = 1)) as [->|N2]; [reflexivity|].
    unfold leased_to in H2. cbn in H2.
    rewrite lookup_singleton_ne in H2 by congruence. discriminate.
Defined.

(** ** The option parser on well-formed and on oversized options *)

(** X15. For an option 82 of at least two bytes whose second byte [e1] is
    at least 2: when [e1] is below the number of bytes, the circuit id is
    made of the bytes at positions 2 to [e1 - 1] and there is no error; when
    [e1] reaches or exceeds the number of bytes, the circuit id is empty and
    the out-of-bounds error is returned.  No bytes past the end are read. *)
Theorem getCircuitID_present (req : Packet) (e : list byte) (e1 : byte) :
  OptionMap req !! OptionRelayAgentInformation = Some e ->
  e !! 1%nat = Some e1 ->
  2 <= GoInt.of_byte e1 ->
  getCircuitID req =
    if bool_decide (GoInt.of_byte e1 < Z.of_nat (length e)) then
      Some (string_of_list_byte
              (take (Z.to_nat (GoInt.of_byte e1) - 2) (drop 2 e)), None)
    else
      Some (""%string,
            Some "option82 option1 out of bounds (check eightytwo[1])"%string).
Proof.
  intros Hopt He1 Hge. unfold getCircuitID, GetOption. rewrite Hopt, He1.
  cbn [mbind option_bind]. case_bool_decide as Hlt; [|reflexivity].
  unfold slice. rewrite !bool_decide_eq_true_2 by lia.
  cbn [andb mbind option_bind].
  rewrite Z2Nat.inj_sub by lia. reflexivity.
Qed.

Lemma getCircuitID_present_witness :
  getCircuitID example_packet =
    if bool_decide (GoInt.of_byte x04
                    < Z.of_nat (length [x01; x04; x61; x62; x63; x64])) then
      Some (string_of_list_byte
              (take (Z.to_nat (GoInt.of_byte x04) - 2)
                 (drop 2 [x01; x04; x61; x62; x63; x64])), None)
    else
      Some (""%string,
            Some "option82 option1 out of bounds (check eightytwo[1])"%string).
Proof.
  apply (getCircuitID_present example_packet [x01; x04; x61; x62; x63; x64]
           x04); [reflexivity | reflexivity | vm_compute; discriminate].
Defined.

(** X16. On an option made of one sub-option, that is a code byte, a length
    byte and as many payload bytes as the length byte says (two or more),
    the circuit id returned is the payload without its last two bytes. *)
Theorem getCircuitID_truncates
    (req : Packet) (code len : byte) (data : list byte) :
  OptionMap req !! OptionRelayAgentInformation = Some (code :: len :: data) ->
  GoInt.of_byte len = Z.of_nat (length data) ->
  (2 <= length data)%nat ->
  getCircuitID req =
    Some (string_of_list_byte (take (length data - 2) data), None).
Proof.
  intros Hopt Hlen Hge. unfold getCircuitID, GetOption. rewrite Hopt.
  cbn [lookup list_lookup mbind option_bind length].
  rewrite bool_decide_eq_true_2 by lia.
  unfold slice. cbn [length]. rewrite !bool_decide_eq_true_2 by lia.
  cbn [andb mbind option_bind].
  rewrite Z2Nat.inj_sub, Hlen, Nat2Z.id by lia. reflexivity.
Qed.

Lemma getCircuitID_truncates_witness :
  getCircuitID example_packet =
    Some (string_of_list_byte
            (take (length [x61; x62; x63; x64] - 2) [x61; x62; x63; x64]),
          None).
Proof.
  apply (getCircuitID_truncates example_packet x01 x04 [x61; x62; x63; x64]);
    [reflexivity | reflexivity | simpl; lia].
Defined.

(** ** The packet handler on its other paths *)

Section HandlerPaths.
Context {Job : Type}.
Implicit Types (w : World Job) (s : DHCPServer) (req : Packet).

(** The handler, with the plumbing of traces and states carried out: what
    it returns in each of its branches. *)
Lemma serveDHCP_run w req s :
  serveDHCP w req s =
    let mac := CHAddr req in
    let gi := GIAddr req in
    if ShouldIgnoreOUI w (net.HardwareAddr_String mac) then
      ([], Some (tt, s))
    else if String.eqb (MessageType req) "DHCPRELEASE" then
      ([EvReleaseLease mac],
       Some (tt, releaseLease (mapRange w (leases s)) mac s))
    else if ShouldIgnoreGI w gi then ([], Some (tt, s))
    else
      match getCircuitID req with
      | None => ([], None)
      | Some (cid, _) =>
          let lookup := EvCreateFromDHCP mac gi cid in
          match CreateFromDHCP w mac gi cid with
          | inl j => ([lookup; EvServeDHCP j], Some (tt, s))
          | inr _ =>
              if negb (String.eqb (Getenv w "ENABLE_DEFAULT_WORKFLOWS") "1")
              then ([lookup], Some (tt, s))
              else
                match freeLease (rand w) s with
                | None => ([lookup; EvFreeLease], None)
                | Some k =>
                    if bool_decide (k = -1) then
                      ([lookup; EvFreeLease], Some (tt, s))
                    else
                      match IPAdd (start s) k with
                      | None => ([lookup; EvFreeLease], None)
                      | Some ip =>
                          let create :=
                            EvCreateHWFromDHCP mac gi cid ip (subnet s)
                              (gateway s) in
                          let pre := [lookup; EvFreeLease; create] in
                          match CreateHWFromDHCP w mac gi cid ip (subnet s)
                                  (gateway s) with
                          | inr _ => (pre, Some (tt, s))
                          | inl j =>
                              match addLease mac ip s with
                              | None => (pre ++ [EvAddLease mac ip], None)
                              | Some s1 =>
                                  let bound :=
                                    pre ++ [EvAddLease mac ip;
                                            EvGetTemplate "default"] in
                                  match GetTemplate w "default" with
                                  | inr _ => (bound, Some (tt, s1))
                                  | inl tid =>
                                      match CreateWorkflow w tid mac with
                                      | inr _ =>
                                          (bound ++ [EvCreateWorkflow tid mac],
                                           Some (tt, s1))
                                      | inl _ =>
                                          (bound ++ [EvCreateWorkflow tid mac;
                                                     EvServeDHCP j],
                                           Some (tt, s1))
                                      end
                                  end
                              end
                          end
                      end
                end
          end
      end.
Proof.
  unfold serveDHCP, server_releaseLease, server_freeLease, server_addLease,
    on_server, get_server, go, emit, bind, ret.
  cbv zeta.
  destruct (ShouldIgnoreOUI w _); [reflexivity|].
  destruct (String.eqb (MessageType req) _); [reflexivity|].
  destruct (ShouldIgnoreGI w _); [reflexivity|].
  destruct (getCircuitID req) as [[cid perr]|]; [|reflexivity].
  cbn [fmap option_fmap option_map].
  destruct (CreateFromDHCP w _ _ _); [reflexivity|].
  destruct (negb _); [reflexivity|].
  destruct (freeLease (rand w) s) as [k|]; [|reflexivity].
  cbn [fmap option_fmap option_map].
  destruct (bool_decide (k = -1)); [reflexivity|].
  destruct (IPAdd (start s) k) as [ip|]; [|reflexivity].
  cbn [fmap option_fmap option_map].
  destruct (CreateHWFromDHCP w _ _ _ _ _ _); [|reflexivity].
  destruct (addLease (CHAddr req) ip s) as [s1|]; [|reflexivity].
  cbn [fmap option_fmap option_map].
  destruct (GetTemplate w _); [|reflexivity].
  destruct (CreateWorkflow w _ _); reflexivity.
Qed.


(** The server state after a run that returns: as before, after a release
    for the client, or after one [addLease] for the client. *)
Lemma serveDHCP_state w req s t s' :
  serveDHCP w req s = (t, Some (tt, s')) ->
  s' = s
  \/ s' = releaseLease (mapRange w (leases s)) (CHAddr req) s
  \/ exists ip, addLease (CHAddr req) ip s = Some s'.
Proof.
  rewrite serveDHCP_run. cbv zeta. intros H.
  repeat match type of H with
         | context [match ?x with _ => _ end] =>
             let E := fresh "E" in destruct x eqn:E
         end;
    try discriminate; injection H as ? ?; subst; eauto.
Qed.

Lemma release_loop_size macs order (m : gmap Z lease) :
  (size (release_loop macs order m) <= size m)%nat.
Proof.
  induction order as [|[i v] rest IH]; cbn [release_loop]; [lia|].
  destruct (String.eqb (nic v) macs); [|exact IH].
  rewrite map_size_delete. destruct (m !! i); unfold id; lia.
Qed.

(** The parse result on an option whose second byte reaches past its
    end. *)
Lemma getCircuitID_error req e e1 :
  OptionMap req !! OptionRelayAgentInformation = Some e ->
  e !! 1%nat = Some e1 ->
  Z.of_nat (length e) <= GoInt.of_byte e1 ->
  exists err, getCircuitID req = Some (""%string, Some err).
Proof.
  intros Hopt He1 Hge. unfold getCircuitID, GetOption. rewrite Hopt, He1.
  cbn [mbind option_bind]. rewrite bool_decide_eq_false_2 by lia. eauto.
Qed.

(** [freeLease] panics exactly on a pool without offsets. *)
Lemma freeLease_None r s : freeLease r s = None <-> leaseRange s <= 0.
Proof.
  unfold freeLease, rand_Intn. case_bool_decide; cbn [mbind option_bind].
  - tauto.
  - split; [discriminate | lia].
Qed.

End HandlerPaths.

(** X17. A packet whose hardware address is on the ignore list, or a
    packet other than a release whose relay address is on the ignore list,
    is dropped: no collaborator is called, the lease table is untouched and
    nothing can panic, whatever option 82 holds. *)
Theorem serveDHCP_dropped {Job : Type}
    (w : World Job) (req : Packet) (s : DHCPServer) :
  ShouldIgnoreOUI w (net.HardwareAddr_String (CHAddr req)) = true
  \/ (MessageType req <> "DHCPRELEASE"%string /\
      ShouldIgnoreGI w (GIAddr req) = true) ->
  serveDHCP w req s = ([], Some (tt, s)).
Proof.
  intros H. rewrite serveDHCP_run. cbv zeta.
  destruct H as [-> | [Hrel ->]]; [reflexivity|].
  apply String.eqb_neq in Hrel. rewrite Hrel.
  destruct (ShouldIgnoreOUI w _); reflexivity.
Qed.

Lemma serveDHCP_dropped_witness :
  serveDHCP example_world_ignoring (with_option82 [x01]) example_server
  = ([], Some (tt, example_server)).
Proof.
  apply (serveDHCP_dropped example_world_ignoring (with_option82 [x01])
           example_server).
  left. reflexivity.
Defined.

(** X18. A release packet from a hardware address that is not ignored is
    handled before the relay filter and before option 82 is parsed: the
    handler only releases, cannot panic and keeps the configuration; the
    table is unchanged when the client has no lease and one entry shorter
    when it has one. *)
Theorem serveDHCP_release {Job : Type}
    (w : World Job) (req : Packet) (s : DHCPServer) :
  ShouldIgnoreOUI w (net.HardwareAddr_String (CHAddr req)) = false ->
  MessageType req = "DHCPRELEASE"%string ->
  range_order (leases s) (mapRange w (leases s)) ->
  exists s',
    serveDHCP w req s = ([EvReleaseLease (CHAddr req)], Some (tt, s')) /\
    same_config s s' /\
    ((forall k, ~ leased_to s (CHAddr req) k) -> s' = s) /\
    (forall k, leased_to s (CHAddr req) k ->
               size (leases s) = S (size (leases s'))).
Proof.
  intros Houi Hrel Hord. rewrite serveDHCP_run. cbv zeta.
  rewrite Houi, Hrel. cbn [String.eqb Ascii.eqb Bool.eqb].
  eexists. split; [reflexivity|]. split; [apply releaseLease_config|].
  destruct (releaseLease_cases (mapRange w (leases s)) (CHAddr req) s Hord)
    as [(i & l & Hl & Hn & Hrel')|[Hall Hsame]].
  - split.
    + intros Hno. exfalso. apply (Hno i). apply leased_to_nic. eauto.
    + intros k _. rewrite Hrel'. cbn [leases set_leases].
      rewrite map_size_delete, Hl.
      assert (size (leases s) <> 0%nat); [|lia].
      intros Hz. apply map_size_empty_inv in Hz. rewrite Hz in Hl.
      rewrite lookup_empty in Hl. discriminate.
  - split; [intros _; exact Hsame|].
    intros k Hk. exfalso. exact (Hall k _ Hk eq_refl).
Qed.

Lemma serveDHCP_release_witness :
  exists s',
    serveDHCP example_world example_release example_server
    = ([EvReleaseLease (CHAddr example_release)], Some (tt, s')) /\
    same_config example_server s' /\
    ((forall k, ~ leased_to example_server (CHAddr example_release) k) ->
     s' = example_server) /\
    (forall k, leased_to example_server (CHAddr example_release) k ->
               size (leases example_server) = S (size (leases s'))).
Proof.
  apply (serveDHCP_release example_world example_release example_server);
    [reflexivity | reflexivity | unfold range_order; reflexivity].
Defined.

(** X19. When auto-provisioning is off, or the inventory knows the client,
    a packet that passes the filters leads to the inventory lookup only,
    followed by the responder if the client is known: the lease table is
    neither consulted nor changed and nothing is created. *)
Theorem serveDHCP_no_provisioning {Job : Type}
    (w : World Job) (req : Packet) (s : DHCPServer)
    (cid : string) (perr : option error) :
  ShouldIgnoreOUI w (net.HardwareAddr_String (CHAddr req)) = false ->
  MessageType req <> "DHCPRELEASE"%string ->
  ShouldIgnoreGI w (GIAddr req) = false ->
  getCircuitID req = Some (cid, perr) ->
  Getenv w "ENABLE_DEFAULT_WORKFLOWS" <> "1"%string
  \/ (exists j, CreateFromDHCP w (CHAddr req) (GIAddr req) cid = inl j) ->
  serveDHCP w req s =
    (EvCreateFromDHCP (CHAddr req) (GIAddr req) cid ::
       match CreateFromDHCP w (CHAddr req) (GIAddr req) cid with
       | inl j => [EvServeDHCP j]
       | inr _ => []
       end,
     Some (tt, s)).
Proof.
  intros Houi Hrel Hgi Hcid Hno. rewrite serveDHCP_run. cbv zeta.
  apply String.eqb_neq in Hrel. rewrite Houi, Hrel, Hgi, Hcid.
  destruct (CreateFromDHCP w _ _ _) as [j|err]; [reflexivity|].
  destruct Hno as [Hoff|[j Hj]]; [|discriminate].
  apply String.eqb_neq in Hoff. rewrite Hoff. reflexivity.
Qed.

Lemma serveDHCP_no_provisioning_witness :
  serveDHCP example_world_disabled example_packet example_server =
    (EvCreateFromDHCP (CHAddr example_packet) (GIAddr example_packet) "ab" ::
       match CreateFromDHCP example_world_disabled (CHAddr example_packet)
               (GIAddr example_packet) "ab" with
       | inl j => [EvServeDHCP j]
       | inr _ => []
       end,
     Some (tt, example_server)).
Proof.
  apply (serveDHCP_no_provisioning example_world_disabled example_packet
           example_server "ab" None);
    [reflexivity | discriminate | reflexivity | reflexivity
    | left; discriminate].
Defined.

(** X20. When every offset of a non-empty pool is leased, an unknown client
    is turned away after the allocation attempt: no hardware is created, no
    template is looked up, no workflow is created and the table stays as it
    is. *)
Theorem serveDHCP_pool_exhausted {Job : Type}
    (w : World Job) (req : Packet) (s : DHCPServer)
    (cid : string) (perr : option error) (derr : error) :
  ShouldIgnoreOUI w (net.HardwareAddr_String (CHAddr req)) = false ->
  MessageType req <> "DHCPRELEASE"%string ->
  ShouldIgnoreGI w (GIAddr req) = false ->
  getCircuitID req = Some (cid, perr) ->
  CreateFromDHCP w (CHAddr req) (GIAddr req) cid = inr derr ->
  Getenv w "ENABLE_DEFAULT_WORKFLOWS" = "1"%string ->
  0 < leaseRange s ->
  (forall j, 0 <= j < leaseRange s -> is_Some (leases s !! j)) ->
  serveDHCP w req s =
    ([EvCreateFromDHCP (CHAddr req) (GIAddr req) cid; EvFreeLease],
     Some (tt, s)).
Proof.
  intros Houi Hrel Hgi Hcid Hdisc Henv Hn Hfull.
  rewrite serveDHCP_run. cbv zeta.
  apply String.eqb_neq in Hrel. rewrite Houi, Hrel, Hgi, Hcid, Hdisc, Henv.
  cbn [String.eqb Ascii.eqb Bool.eqb negb].
  destruct (freeLease (rand w) s) as [k|] eqn:Hk.
  - destruct (freeLease_Some _ _ _ Hk) as [[-> _]|[Hin Hfree]].
    + reflexivity.
    + destruct (Hfull k Hin) as [l Hl]. congruence.
  - apply freeLease_None in Hk. lia.
Qed.

Lemma serveDHCP_pool_exhausted_witness :
  serveDHCP example_world example_packet example_full_server =
    ([EvCreateFromDHCP (CHAddr example_packet) (GIAddr example_packet) "ab";
      EvFreeLease],
     Some (tt, example_full_server)).
Proof.
  apply (serveDHCP_pool_exhausted example_world example_packet
           example_full_server "ab" None "hardware not found");
    [reflexivity | discriminate | reflexivity | reflexivity | reflexivity
    | reflexivity | simpl; lia |].
  intros j Hj. assert (j = 0) as -> by (simpl in Hj; lia).
  eexists. reflexivity.
Defined.

(** X21. An option 82 whose second byte reaches past its end does not stop
    the handling: the inventory lookup is made with an empty circuit id. *)
Theorem serveDHCP_option82_error {Job : Type}
    (w : World Job) (req : Packet) (s : DHCPServer)
    (e : list byte) (e1 : byte) :
  ShouldIgnoreOUI w (net.HardwareAddr_String (CHAddr req)) = false ->
  MessageType req <> "DHCPRELEASE"%string ->
  ShouldIgnoreGI w (GIAddr req) = false ->
  OptionMap req !! OptionRelayAgentInformation = Some e ->
  e !! 1%nat = Some e1 ->
  Z.of_nat (length e) <= GoInt.of_byte e1 ->
  exists t o,
    serveDHCP w req s =
      (EvCreateFromDHCP (CHAddr req) (GIAddr req) "" :: t, o).
Proof.
  intros Houi Hrel Hgi Hopt He1 Hge.
  destruct (getCircuitID_error req e e1 Hopt He1 Hge) as [err Hcid].
  rewrite serveDHCP_run. cbv zeta.
  apply String.eqb_neq in Hrel. rewrite Houi, Hrel, Hgi, Hcid.
  repeat match goal with
         | |- context [match ?x with _ => _ end] => destruct x
         end; eauto.
Qed.

Lemma serveDHCP_option82_error_witness :
  exists t o,
    serveDHCP example_world (with_option82 [x01; x09; x41]) example_server =
      (EvCreateFromDHCP (CHAddr (with_option82 [x01; x09; x41]))
         (GIAddr (with_option82 [x01; x09; x41])) "" :: t, o).
Proof.
  apply (serveDHCP_option82_error example_world
           (with_option82 [x01; x09; x41]) example_server
           [x01; x09; x41] x09);
    [reflexivity | discriminate | reflexivity | reflexivity | reflexivity
    | vm_compute; discriminate].
Defined.

(** X22. An option 82 of fewer than two bytes, or with a second byte below
    2, makes the handler panic on every packet that passes the filters,
    before any collaborator is called. *)
Theorem serveDHCP_malformed_option82 {Job : Type}
    (w : World Job) (req : Packet) (s : DHCPServer) (e : list byte) :
  ShouldIgnoreOUI w (net.HardwareAddr_String (CHAddr req)) = false ->
  MessageType req <> "DHCPRELEASE"%string ->
  ShouldIgnoreGI w (GIAddr req) = false ->
  OptionMap req !! OptionRelayAgentInformation = Some e ->
  (length e < 2)%nat
  \/ (exists e1, e !! 1%nat = Some e1 /\ GoInt.of_byte e1 < 2) ->
  serveDHCP w req s = ([], None).
Proof.
  intros Houi Hrel Hgi Hopt Hbad.
  apply (getCircuitID_panic_iff req e Hopt) in Hbad.
  rewrite serveDHCP_run. cbv zeta.
  apply String.eqb_neq in Hrel. rewrite Houi, Hrel, Hgi, Hbad. reflexivity.
Qed.

Lemma serveDHCP_malformed_option82_witness :
  serveDHCP example_world (with_option82 [x01; x01; x41]) example_server
  = ([], None).
Proof.
  apply (serveDHCP_malformed_option82 example_world
           (with_option82 [x01; x01; x41]) example_server [x01; x01; x41]);
    [reflexivity | discriminate | reflexivity | reflexivity |].
  right. exists x01. split; [reflexivity | vm_compute; reflexivity].
Defined.

(** X23. Every run of the handler that returns leaves the pool
    configuration as it was, keeps the keys of the lease table inside the
    pool, and adds at most one entry to the table. *)
Theorem serveDHCP_keeps_invariant {Job : Type}
    (w : World Job) (req : Packet) (s s' : DHCPServer)
    (t : list (event Job)) :
  serveDHCP w req s = (t, Some (tt, s')) ->
  same_config s s' /\
  (keys_in_range s -> keys_in_range s') /\
  (size (leases s') <= S (size (leases s)))%nat.
Proof.
  intros H. destruct (serveDHCP_state w req s t s' H)
    as [->|[->|[ip Hadd]]].
  - split; [repeat split|]. split; [auto | lia].
  - split; [apply releaseLease_config|]. split.
    + intros Hk k l Hl. cbn [releaseLease leases set_leases leaseRange] in *.
      apply release_loop_sub in Hl. exact (keys_in_range_lookup s k l Hk Hl).
    + cbn [releaseLease leases set_leases].
      pose proof (release_loop_size (net.HardwareAddr_String (CHAddr req))
                    (mapRange w (leases s)) (leases s)). lia.
  - destruct (addLease_cases _ _ _ _ Hadd)
      as [->|(r & Hr & Hin & Hfree & ->)].
    + split; [repeat split|]. split; [auto | lia].
    + split; [repeat split|]. cbn [leases set_leases leaseRange]. split.
      * intros Hk k l Hl. cbn [leases set_leases] in Hl.
        apply lookup_insert_Some in Hl as [[<- _]|[_ Hl]].
        -- exact Hin.
        -- exact (keys_in_range_lookup s k l Hk Hl).
      * rewrite map_size_insert_None by exact Hfree. lia.
Qed.

Lemma serveDHCP_keeps_invariant_witness :
  same_config example_server
    (set_leases (<[2%Z := Lease "02:00:00:00:00:01"]> (leases example_server))
       example_server) /\
  (keys_in_range example_server ->
   keys_in_range
     (set_leases (<[2%Z := Lease "02:00:00:00:00:01"]> (leases example_server))
        example_server)) /\
  (size (leases
           (set_leases
              (<[2%Z := Lease "02:00:00:00:00:01"]> (leases example_server))
              example_server))
   <= S (size (leases example_server)))%nat.
Proof.
  apply (serveDHCP_keeps_invariant example_world example_packet
           example_server
           (set_leases
              (<[2%Z := Lease "02:00:00:00:00:01"]> (leases example_server))
              example_server)
           (fst (serveDHCP example_world example_packet example_server))).
  vm_compute. reflexivity.
Defined.

Section HandlerPanics.

(** Once [IPAdd] has produced the address, [addLease] returns. *)
Lemma addLease_after_IPAdd c s k ip :
  IPAdd (start s) k = Some ip -> exists s', addLease c ip s = Some s'.
Proof.
  intros Hadd.
  destruct (ip_value (start s)) as [v|] eqn:Hv.
  - destruct (IPAdd_bytes (start s) v k Hv) as (a & b & c' & d & E & _).
    rewrite E in Hadd. injection Hadd as <-.
    destruct (IPRange_total (start s) v a b c' d Hv) as [r Hr].
    exact (addLease_total c _ s r Hr).
  - apply (IPAdd_None (start s) k) in Hv. congruence.
Qed.

End HandlerPanics.

(** X24. The handler panics in three situations only, all of them behind
    the filters: the option parser panics (by [getCircuitID_panic_iff], on
    an option 82 shorter than two bytes or with a second byte below 2); or
    the client is unknown, auto-provisioning is on, and either the pool has
    no offsets or an offset is free while the start of the pool is not an
    IPv4 address. *)
Theorem serveDHCP_panics_iff {Job : Type}
    (w : World Job) (req : Packet) (s : DHCPServer) :
  snd (serveDHCP w req s) = None <->
  ShouldIgnoreOUI w (net.HardwareAddr_String (CHAddr req)) = false /\
  MessageType req <> "DHCPRELEASE"%string /\
  ShouldIgnoreGI w (GIAddr req) = false /\
  match getCircuitID req with
  | None => True
  | Some (cid, _) =>
      (exists err, CreateFromDHCP w (CHAddr req) (GIAddr req) cid = inr err)
      /\ Getenv w "ENABLE_DEFAULT_WORKFLOWS" = "1"%string
      /\ (leaseRange s <= 0
          \/ ((exists j, 0 <= j < leaseRange s /\ leases s !! j = None)
              /\ net.To4 (start s) = []))
  end.
Proof.
  rewrite serveDHCP_run. cbv zeta.
  destruct (ShouldIgnoreOUI w _);
    [split; [discriminate | intros (H & _); discriminate]|].
  destruct (String.eqb_spec (MessageType req) "DHCPRELEASE") as [Hrel|Hrel];
    [split; [discriminate | intros (_ & H & _); congruence]|].
  destruct (ShouldIgnoreGI w _);
    [split; [discriminate | intros (_ & _ & H & _); discriminate]|].
  destruct (getCircuitID req) as [[cid perr]|]; [|cbn; tauto].
  destruct (CreateFromDHCP w _ _ _) as [j|err].
  { split; [discriminate|]. intros (_ & _ & _ & [e He] & _). discriminate. }
  destruct (String.eqb_spec (Getenv w "ENABLE_DEFAULT_WORKFLOWS") "1")
    as [Henv|Henv]; cbn [negb].
  2: { split; [discriminate|]. intros (_ & _ & _ & _ & H & _). congruence. }
  destruct (freeLease (rand w) s) as [k|] eqn:Hk.
  2: { apply freeLease_None in Hk. cbn [snd]. split; [|reflexivity].
       intros _. repeat split; eauto. }
  assert (Hpos : 0 < leaseRange s).
  { destruct (Z.lt_ge_cases 0 (leaseRange s)) as [H|H]; [exact H|].
    apply (proj2 (freeLease_None (rand w) s)) in H. congruence. }
  destruct (freeLease_Some _ _ _ Hk) as [[-> Hfull]|[Hin Hfree]].
  { rewrite bool_decide_eq_true_2 by reflexivity. split; [discriminate|].
    intros (_ & _ & _ & _ & _ & [H|[(j & Hj & Hf) _]]); [lia|].
    destruct (Hfull j Hj) as [l Hl]. congruence. }
  rewrite bool_decide_eq_false_2 by lia.
  destruct (IPAdd (start s) k) as [ip|] eqn:Hadd.
  2: { apply IPAdd_None, ip_value_None in Hadd. cbn [snd].
       split; [|reflexivity]. intros _. repeat split; eauto. }
  assert (H4 : net.To4 (start s) <> []).
  { intros H. apply ip_value_None, (IPAdd_None (start s) k) in H.
    congruence. }
  match goal with
  | |- snd ?run = None <-> _ => assert (Hret : snd run <> None)
  end.
  { destruct (addLease_after_IPAdd (CHAddr req) s k ip Hadd) as [s1 ->].
    destruct (CreateHWFromDHCP w _ _ _ _ _ _); [|discriminate].
    destruct (GetTemplate w _); [|discriminate].
    destruct (CreateWorkflow w _ _); discriminate. }
  split; [intros H; contradiction|].
  intros (_ & _ & _ & _ & _ & [H|[_ H]]); [lia | contradiction].
Qed.

Lemma serveDHCP_panics_iff_witness :
  snd (serveDHCP example_world (with_option82 [x01; x01; x41])
         example_server) = None.
Proof.
  apply (serveDHCP_panics_iff example_world (with_option82 [x01; x01; x41])
           example_server).
  repeat split. discriminate.
Defined.

(** X25. When the pool lies inside the IPv4 address space, a provisioning
    run whose hardware creation succeeds records the lease of the address
    it sent to the inventory: the table afterwards is the old one with the
    allocated offset, free before, leased to the client, whether or not the
    template lookup and the workflow creation succeed. *)
Theorem serveDHCP_records_allocation {Job : Type}
    (w : World Job) (req : Packet) (s : DHCPServer)
    (cid : string) (perr : option error) (derr : error) (j0 v : Z) :
  ShouldIgnoreOUI w (net.HardwareAddr_String (CHAddr req)) = false ->
  MessageType req <> "DHCPRELEASE"%string ->
  ShouldIgnoreGI w (GIAddr req) = false ->
  getCircuitID req = Some (cid, perr) ->
  CreateFromDHCP w (CHAddr req) (GIAddr req) cid = inr derr ->
  Getenv w "ENABLE_DEFAULT_WORKFLOWS" = "1"%string ->
  0 <= j0 < leaseRange s -> leases s !! j0 = None ->
  ip_value (start s) = Some v -> v + leaseRange s <= 2 ^ 32 ->
  exists k ip,
    freeLease (rand w) s = Some k /\ leases s !! k = None /\
    IPAdd (start s) k = Some ip /\ ip_value ip = Some (v + k) /\
    ((exists j, CreateHWFromDHCP w (CHAddr req) (GIAddr req) cid ip
                  (subnet s) (gateway s) = inl j) ->
     In (EvCreateHWFromDHCP (CHAddr req) (GIAddr req) cid ip (subnet s)
           (gateway s))
        (fst (serveDHCP w req s)) /\
     snd (serveDHCP w req s) =
       Some (tt, set_leases
                   (<[k := Lease (net.HardwareAddr_String (CHAddr req))]>
                      (leases s)) s)).
Proof.
  intros Houi Hrel Hgi Hcid Hdisc Henv Hj0 Hfree0 Hv Hfit.
  destruct (freeLease_finds (rand w) s j0 Hj0 Hfree0)
    as (k & Hk & Hin & Hnone).
  destruct (IPAdd_value (start s) v k Hv) as (ip & Hadd & Hip); [lia|lia|].
  exists k, ip. repeat (split; [assumption|]).
  intros [j Hj].
  assert (Hr : IPRange (start s) ip = Some (k + 1)).
  { rewrite (IPRange_values _ _ _ _ Hv Hip). f_equal. lia. }
  assert (Ek : k + 1 - 1 = k) by lia.
  assert (Hbind : addLease (CHAddr req) ip s =
            Some (set_leases
                    (<[k := Lease (net.HardwareAddr_String (CHAddr req))]>
                       (leases s)) s)).
  { rewrite (addLease_free _ ip s (k + 1) Hr); rewrite Ek; auto. }
  rewrite serveDHCP_run. cbv zeta.
  apply String.eqb_neq in Hrel.
  rewrite Houi, Hrel, Hgi, Hcid, Hdisc, Henv.
  cbn [String.eqb Ascii.eqb Bool.eqb negb].
  rewrite Hk, bool_decide_eq_false_2, Hadd, Hj, Hbind by lia.
  destruct (GetTemplate w _); [destruct (CreateWorkflow w _ _)|];
    cbn; auto.
Qed.

Lemma serveDHCP_records_allocation_witness :
  exists k ip,
    freeLease (rand example_world) example_server = Some k /\
    leases example_server !! k = None /\
    IPAdd (start example_server) k = Some ip /\
    ip_value ip = Some (167772161 + k) /\
    ((exists j, CreateHWFromDHCP example_world (CHAddr example_packet)
                  (GIAddr example_packet) "ab" ip (subnet example_server)
                  (gateway example_server) = inl j) ->
     In (EvCreateHWFromDHCP (CHAddr example_packet) (GIAddr example_packet)
           "ab" ip (subnet example_server) (gateway example_server))
        (fst (serveDHCP example_world example_packet example_server)) /\
     snd (serveDHCP example_world example_packet example_server) =
       Some (tt, set_leases
                   (<[k := Lease (net.HardwareAddr_String
                                    (CHAddr example_packet))]>
                      (leases example_server)) example_server)).
Proof.
  apply (serveDHCP_records_allocation example_world example_packet
           example_server "ab" None "hardware not found" 0 167772161);
    [reflexivity | discriminate | reflexivity | reflexivity | reflexivity
    | reflexivity | simpl; lia | reflexivity | reflexivity | simpl; lia].
Defined.

(** X26. A pool that reaches past the end of the IPv4 address space loses
    leases: for a free offset [k] with [start + k] at or beyond 2^32,
    [IPAdd] wraps to the address of value [start + k - 2^32], and [addLease]
    on that address leaves the table unchanged, so the offset stays free. *)
Theorem addLease_lost_on_wrap
    (r : Z) (s : DHCPServer) (k v : Z) (c : net.HardwareAddr) :
  freeLease r s = Some k -> k <> -1 ->
  ip_value (start s) = Some v ->
  2 ^ 32 <= v + k -> leaseRange s <= 2 ^ 32 ->
  exists ip,
    IPAdd (start s) k = Some ip /\
    ip_value ip = Some (v + k - 2 ^ 32) /\
    addLease c ip s = Some s.
Proof.
  intros Hf Hk Hv Hwrap Hsmall.
  destruct (freeLease_Some _ _ _ Hf) as [[-> _]|[Hin _]]; [congruence|].
  pose proof (ip_value_range _ _ Hv) as Hvr.
  destruct (IPAdd_bytes (start s) v k Hv) as (a & b & c' & d & E & V).
  assert (Hmod : (v + k) mod 2 ^ 32 = v + k - 2 ^ 32).
  { symmetry. apply Z.mod_unique with 1; lia. }
  exists (net.IPv4 a b c' d).
  assert (Hip : ip_value (net.IPv4 a b c' d) = Some (v + k - 2 ^ 32))
    by (rewrite ip_value_IPv4, V, Hmod; reflexivity).
  split; [exact E|]. split; [exact Hip|].
  apply (addLease_outside c _ s (v + k - 2 ^ 32 - v + 1)).
  - exact (IPRange_values _ _ _ _ Hv Hip).
  - left. lia.
Qed.

Lemma addLease_lost_on_wrap_witness :
  exists ip,
    IPAdd (start example_edge_server) 2 = Some ip /\
    ip_value ip = Some (4294967294 + 2 - 2 ^ 32) /\
    addLease example_mac ip example_edge_server = Some example_edge_server.
Proof.
  apply (addLease_lost_on_wrap 2 example_edge_server 2 4294967294 example_mac);
    [reflexivity | lia | reflexivity | lia | simpl; lia].
Defined.

Section SupervisorFacts.

(** What the retry loop returns, started at call [n] with [remaining]
    attempts left. *)
Lemma retry_loop_outcome f n remaining log :
  match retry_loop f n remaining log with
  | (calls, Some errs) =>
      calls = (n + remaining)%nat /\
      length errs = (length log + remaining)%nat /\
      forall i, (n <= i)%nat -> (i < n + remaining)%nat -> is_Some (f i)
  | (calls, None) =>
      exists k, calls = S k /\ (n <= k < n + remaining)%nat /\ f k = None /\
                forall i, (n <= i)%nat -> (i < k)%nat -> is_Some (f i)
  end.
Proof.
  revert n log. induction remaining as [|rem IH]; intros n log;
    cbn [retry_loop].
  - split; [lia|]. split; [lia|]. intros i Hi1 Hi2. lia.
  - destruct (f n) as [e|] eqn:E.
    + specialize (IH (S n) (log ++ [e])).
      destruct (retry_loop f (S n) rem (log ++ [e])) as [calls [errs|]].
      * destruct IH as (-> & Hlen & Hall). rewrite length_app in Hlen.
        cbn [length] in Hlen. split; [lia|]. split; [lia|].
        intros i Hi1 Hi2. destruct (decide (i = n)) as [->|Hne]; [eauto|].
        apply Hall; lia.
      * destruct IH as (k & -> & Hk & Hok & Hall).
        exists k. split; [reflexivity|]. split; [lia|]. split; [exact Hok|].
        intros i Hi1 Hi2. destruct (decide (i = n)) as [->|Hne]; [eauto|].
        apply Hall; lia.
    + exists n. split; [reflexivity|]. split; [lia|]. split; [exact E|].
      intros i Hi1 Hi2. lia.
Qed.

End SupervisorFacts.


(** ** The fetch keys and the supervisor *)

(** X27. A discovery and a creation use the same key of the group exactly
    when they are for the same hardware address; the relay address, the
    circuit id and the address to assign play no role. *)
Theorem fetch_keys_by_hardware_address
    (IP_String : net.IP -> string)
    (mac mac' : net.HardwareAddr) (gi gi' : net.IP) (cid cid' : string)
    (ip subnet gateway : net.IP) :
  key IP_String (discoverHardwareFromDHCP mac gi cid)
  = key IP_String (createHardwareFromDHCP mac' gi' cid' ip subnet gateway)
  <-> mac = mac'.
Proof.
  cbn [key]. split.
  - apply HardwareAddr_String_inj.
  - intros ->. reflexivity.
Qed.

(** X28. In the flight-collapsing group, a creation that is issued while a
    discovery for the same hardware address is running does not create
    anything: it joins the discovery, the only operation invoked when the
    discovery returns is that discovery, and the creation's caller receives
    the discovery's outcome. *)
Theorem create_joins_discovery {Discovery : Type}
    (IP_String : net.IP -> string)
    (sched : list (action Discovery)) (g : group Discovery)
    (t0 t c : nat) (mac : net.HardwareAddr) (gi gi' : net.IP)
    (cid cid' : string) (ip subnet gateway : net.IP)
    (r : outcome Discovery) :
  run IP_String sched init = Some g ->
  callers g !! t0 = Some (Running c (discoverHardwareFromDHCP mac gi cid)) ->
  callers g !! t = None ->
  exists g',
    run IP_String
      [Call t (createHardwareFromDHCP mac gi' cid' ip subnet gateway);
       Fn t0 r; Wake t] g = Some g' /\
    callers g' !! t = Some (Returned c r) /\
    backend g' = backend g ++ [(c, discoverHardwareFromDHCP mac gi cid, r)].
Proof.
  intros Hrun H0 Ht.
  pose proof (fetch_inv_reachable IP_String sched g Hrun) as I.
  destruct (inv_running _ _ I _ _ _ H0) as [_ Hm]. cbn [key] in Hm.
  assert (Hne : t <> t0) by congruence.
  cbn [run step key]. rewrite Ht, Hm.
  cbn [callers results backend inflight next].
  rewrite lookup_insert_ne by exact Hne. rewrite H0.
  cbn [callers results backend inflight next].
  rewrite lookup_insert_ne by congruence.
  rewrite lookup_insert_eq, lookup_insert_eq.
  eexists. split; [reflexivity|].
  cbn [callers backend]. rewrite lookup_insert_eq. auto.
Qed.

Lemma create_joins_discovery_witness :
  exists g',
    run example_IP_String
      [Call 1 example_create; Fn 0 example_not_found; Wake 1]
      example_group_discovering
    = Some g' /\
    callers g' !! 1%nat = Some (Returned 0 example_not_found) /\
    backend g' =
      backend example_group_discovering
      ++ [(0%nat, example_discover, example_not_found)].
Proof.
  apply (create_joins_discovery example_IP_String [Call 0 example_discover]
           example_group_discovering
           0 1 0 example_mac [x00; x00; x00; x00] [x00; x00; x00; x00]
           "ab" "ab" [x0a; x00; x00; x03] [xff; xff; xff; x00]
           [x0a; x00; x00; xfe] example_not_found);
    vm_compute; reflexivity.
Defined.

(** X29. The supervisor ends by returning exactly when one of the first
    [attempts] calls of listen-and-serve succeeds, and then right after the
    first success; otherwise all [attempts] calls were made and failed, and
    it ends in [Fatal] with one collected failure per call. *)
Theorem ServeDHCP_outcome (attempts : nat) (op : nat -> option error) :
  match ServeDHCP attempts op with
  | (calls, Return) =>
      exists k, calls = S k /\ (k < attempts)%nat /\ op k = None /\
                forall i, (i < k)%nat -> is_Some (op i)
  | (calls, Fatal _ errs) =>
      calls = attempts /\ length errs = attempts /\
      forall i, (i < attempts)%nat -> is_Some (op i)
  end.
Proof.
  unfold ServeDHCP, retry_Do.
  pose proof (retry_loop_outcome
                (fun n => errors_Wrap (op n) "serving dhcp") 0 attempts [])
    as H.
  destruct (retry_loop _ 0 attempts []) as [calls [errs|]].
  - destruct H as (-> & Hlen & Hall). cbn [length] in Hlen.
    repeat split; try lia.
    intros i Hi. destruct (Hall i ltac:(lia) ltac:(lia)) as [e He].
    unfold errors_Wrap in He. destruct (op i); [eauto | discriminate].
  - destruct H as (k & -> & Hk & Hok & Hall).
    exists k. repeat split; try lia.
    + unfold errors_Wrap in Hok. destruct (op k); [discriminate | reflexivity].
    + intros i Hi. destruct (Hall i ltac:(lia) ltac:(lia)) as [e He].
      unfold errors_Wrap in He. destruct (op i); [eauto | discriminate].
Qed.
